(** * GravityVecField: the gravity simulation and its vector field

    A shallow embedding of [src/first_app.cpp]: the classes
    [GravityPhysicsSystem] (pairwise inverse-square forces, semi-implicit
    Euler integration with sub-steps) and [Vec2FieldSystem] (the net force
    sampled on a grid of field lines).

    The program computes on C++ [float].  Its text is embedded once, over
    an interface of scalar operations ([Scalar], [Libm]); two instances
    interpret it:
    - [Real]: exact real arithmetic, the arithmetic in which the
      specification writes its formulas and states its algebraic laws;
    - [Binary32]: IEEE-754 single precision with round-to-nearest-even,
      built from the Standard Library's [SpecFloat]; it is executable, and
      it is what the compiled program runs on.

    What does not depend on the arithmetic (the guard, what is written
    and what is left alone) is proved for every instance, and the force
    law and the structure of a step for every instance with two laws
    ([ScalarLaws]) that the reals and binary32 both have.  The algebraic
    identities are proved over the reals; the binary32 instance runs the
    program on concrete inputs, and shows which of them hold in [float]
    only up to rounding.  What the program writes is read off its result
    through the projections, in binary32 as over the reals; the bounds on
    the length of a field line are proved in binary32 from [SpecFloat]'s
    definitions of rounding.

    A [std::vector<SveGameObject>&] parameter becomes a list that is passed
    in and returned; iterators become indices, and a write through a
    reference to an element becomes [alter] at its index. *)

From Stdlib Require Import Reals Lra Lia ZArith NArith SpecFloat.
From stdpp Require Import base decidable option list list_numbers.

(** ** Scalars *)

(** The operations [first_app.cpp] applies to [float] values, and the
    literals that occur in it.  The program compares with [<] only; [>=]
    is there to state the conditions of the specification. *)
Class Scalar (F : Type) := {
  fadd : F -> F -> F;
  fsub : F -> F -> F;
  fmul : F -> F -> F;
  fdiv : F -> F -> F;
  fneg : F -> F;
  fabs : F -> F;            (* glm::abs *)
  fsqrt : F -> F;           (* glm::sqrt *)
  flt : F -> F -> bool;     (* operator< *)
  fge : F -> F -> bool;     (* operator>= *)
  of_uint : N -> F;         (* conversion of an unsigned int operand *)
  f_0 : F;                  (* .0f, 0.f *)
  f_1 : F;                  (* 1.f, and the int operand 1 *)
  f_3 : F;                  (* 3.f *)
  f_1e_10 : F;              (* 1e-10f *)
  f_0_005 : F;              (* 0.005f *)
  f_0_045 : F               (* 0.045f *)
}.

(** The two functions of the C library that [Vec2FieldSystem] calls. *)
Class Libm (F : Type) := {
  flog : F -> F;            (* glm::log *)
  fatan2 : F -> F -> F      (* atan2 *)
}.

Declare Scope fp_scope.
Delimit Scope fp_scope with fp.
Notation "a + b" := (fadd a b) : fp_scope.
Notation "a - b" := (fsub a b) : fp_scope.
Notation "a * b" := (fmul a b) : fp_scope.
Notation "a / b" := (fdiv a b) : fp_scope.
Notation "- a" := (fneg a) : fp_scope.
Notation "a <? b" := (flt a b) : fp_scope.
Notation "a >=? b" := (fge a b) (at level 70) : fp_scope.

(** The two laws of the arithmetic that the proofs use: [>=] excludes
    [<], and adding [d * -f / m] is subtracting [d * f / m]. *)
Class ScalarLaws (F : Type) {ops : Scalar F} : Prop := {
  fge_not_lt : forall a c : F, fge a c = true -> flt a c = false;
  sign_law : forall a d f m : F,
    fadd a (fdiv (fmul d (fneg f)) m) = fsub a (fdiv (fmul d f) m)
}.

(** ** Vectors (glm) *)

Record vec2 (F : Type) := Vec2 { x : F; y : F }.
Record vec3 (F : Type) := Vec3 { r : F; g : F; b : F }.
Arguments Vec2 {F} _ _.
Arguments x {F} _.
Arguments y {F} _.
Arguments Vec3 {F} _ _ _.

Section Glm.
Context {F : Type} {ops : Scalar F}.
Local Open Scope fp_scope.

(** [glm::vec2{}] and [{.0f, .0f}] *)
Definition vzero : vec2 F := Vec2 f_0 f_0.

(** the componentwise operators of [glm::vec2] *)
Definition vadd (u v : vec2 F) : vec2 F := Vec2 (x u + x v) (y u + y v).
Definition vsub (u v : vec2 F) : vec2 F := Vec2 (x u - x v) (y u - y v).
Definition vneg (v : vec2 F) : vec2 F := Vec2 (- x v) (- y v).
(** scalar * vector and vector / scalar *)
Definition vscale (s : F) (v : vec2 F) : vec2 F := Vec2 (s * x v) (s * y v).
Definition vdiv (v : vec2 F) (s : F) : vec2 F := Vec2 (x v / s) (y v / s).

(** [glm::dot]: the sum of the componentwise products *)
Definition dot (u v : vec2 F) : F := x u * x v + y u * y v.

(** [glm::length] *)
Definition length2 (v : vec2 F) : F := fsqrt (dot v v).

(** [glm::max], [glm::min] and [glm::clamp], as GLM defines them with [<] *)
Definition fmax (a c : F) : F := if a <? c then c else a.
Definition fmin (a c : F) : F := if c <? a then c else a.
Definition clamp (a minVal maxVal : F) : F := fmin (fmax a minVal) maxVal.
End Glm.

Declare Scope vec_scope.
Delimit Scope vec_scope with vec.
Notation "u +v w" := (vadd u w) (at level 50, left associativity) : vec_scope.
Notation "u -v w" := (vsub u w) (at level 50, left associativity) : vec_scope.
Notation "s *v w" := (vscale s w) (at level 40, left associativity) : vec_scope.
Notation "w /v s" := (vdiv w s) (at level 40, left associativity) : vec_scope.
Notation "-v w" := (vneg w) (at level 35, right associativity) : vec_scope.

(** ** Game objects *)

(** Modelled from the spec: [sve_game_object.hpp] is not among the sources.
    The record has the members that [first_app.cpp] reads or writes
    ([model], [color], [transform2d.translation], [transform2d.scale],
    [transform2d.rotation], [rigidBody2d.velocity], [rigidBody2d.mass]);
    they are the spec's Body: mass, position (the transform's translation),
    velocity, scale, rotation and colour.  [model] is the shared mesh, an
    opaque handle. *)
Record Transform2dComponent (F : Type) := {
  translation : vec2 F;
  scale : vec2 F;
  rotation : F
}.
Record RigidBody2dComponent (F : Type) := {
  velocity : vec2 F;
  mass : F
}.
Record SveGameObject (F : Type) := {
  model : nat;
  color : vec3 F;
  transform2d : Transform2dComponent F;
  rigidBody2d : RigidBody2dComponent F
}.
Arguments translation {F} _.
Arguments scale {F} _.
Arguments rotation {F} _.
Arguments velocity {F} _.
Arguments mass {F} _.
Arguments model {F} _.
Arguments color {F} _.
Arguments transform2d {F} _.
Arguments rigidBody2d {F} _.

Section Assignments.
Context {F : Type}.

(** [obj.rigidBody2d.velocity = v] *)
Definition set_velocity (obj : SveGameObject F) (v : vec2 F) : SveGameObject F :=
  {| model := model obj; color := color obj; transform2d := transform2d obj;
     rigidBody2d := {| velocity := v; mass := mass (rigidBody2d obj) |} |}.

(** [obj.rigidBody2d.mass = m] (the host sets it; no system writes it) *)
Definition set_mass (obj : SveGameObject F) (m : F) : SveGameObject F :=
  {| model := model obj; color := color obj; transform2d := transform2d obj;
     rigidBody2d := {| velocity := velocity (rigidBody2d obj); mass := m |} |}.

(** [obj.transform2d.translation = p] *)
Definition set_translation (obj : SveGameObject F) (p : vec2 F) : SveGameObject F :=
  {| model := model obj; color := color obj;
     transform2d := {| translation := p; scale := scale (transform2d obj);
                       rotation := rotation (transform2d obj) |};
     rigidBody2d := rigidBody2d obj |}.

(** [obj.transform2d.scale.x = s] *)
Definition set_scale_x (obj : SveGameObject F) (s : F) : SveGameObject F :=
  {| model := model obj; color := color obj;
     transform2d := {| translation := translation (transform2d obj);
                       scale := Vec2 s (y (scale (transform2d obj)));
                       rotation := rotation (transform2d obj) |};
     rigidBody2d := rigidBody2d obj |}.

(** [obj.transform2d.rotation = a] *)
Definition set_rotation (obj : SveGameObject F) (a : F) : SveGameObject F :=
  {| model := model obj; color := color obj;
     transform2d := {| translation := translation (transform2d obj);
                       scale := scale (transform2d obj);
                       rotation := a |};
     rigidBody2d := rigidBody2d obj |}.

(** What [computeForce] reads of an object: its position and its mass. *)
Definition placed (obj : SveGameObject F) : vec2 F * F :=
  (translation (transform2d obj), mass (rigidBody2d obj)).
End Assignments.

(** ** class GravityPhysicsSystem *)

Module GravityPhysicsSystem.
(** The object: its one member, [const float strengthGravity]. *)
Record t (F : Type) := Build { strengthGravity : F }.
Arguments Build {F} _.
Arguments strengthGravity {F} _.

Section Methods.
Context {F : Type} {ops : Scalar F}.
Variable self : t F.
Local Open Scope fp_scope.
Local Open Scope vec_scope.

(** [glm::vec2 computeForce(SveGameObject& fromObj, SveGameObject& toObj) const] *)
Definition computeForce (fromObj toObj : SveGameObject F) : vec2 F :=
  let offset := translation (transform2d fromObj) -v translation (transform2d toObj) in
  let distanceSquared := dot offset offset in
  if fabs distanceSquared <? f_1e_10 then Vec2 f_0 f_0
  else
    let force :=
      strengthGravity self * mass (rigidBody2d toObj) * mass (rigidBody2d fromObj)
      / distanceSquared in
    force *v offset /v fsqrt distanceSquared.

(** The body of the inner loop of [stepSimulation] for the elements at
    [iterA] and [iterB]: [objA] and [objB] are references into the
    vector, so the force is computed from the vector as it is now, and
    each of the two assignments reads and writes the element in place. *)
Definition applyForce (dt : F) (iterA iterB : nat)
    (physicsObjs : list (SveGameObject F)) : list (SveGameObject F) :=
  match physicsObjs !! iterA, physicsObjs !! iterB with
  | Some objA, Some objB =>
      let force := computeForce objA objB in
      let physicsObjs :=
        alter (fun objA => set_velocity objA
                 (velocity (rigidBody2d objA) +v dt *v -v force /v mass (rigidBody2d objA)))
              iterA physicsObjs in
      alter (fun objB => set_velocity objB
               (velocity (rigidBody2d objB) +v dt *v force /v mass (rigidBody2d objB)))
            iterB physicsObjs
  | _, _ => physicsObjs
  end.

(** [for (auto iterB = iterA; iterB != physicsObjs.end(); ++iterB)],
    with [if (iterA == iterB) continue;] *)
Definition innerLoop (dt : F) (iterA : nat)
    (physicsObjs : list (SveGameObject F)) : list (SveGameObject F) :=
  foldl (fun objs iterB =>
           if decide (iterA = iterB) then objs else applyForce dt iterA iterB objs)
        physicsObjs (seq iterA (length physicsObjs - iterA)).

(** [for (auto iterA = physicsObjs.begin(); iterA != physicsObjs.end(); ++iterA)] *)
Definition pairLoop (dt : F)
    (physicsObjs : list (SveGameObject F)) : list (SveGameObject F) :=
  foldl (fun objs iterA => innerLoop dt iterA objs)
        physicsObjs (seq 0 (length physicsObjs)).

(** [for (auto& obj : physicsObjs) obj.transform2d.translation += dt * obj.rigidBody2d.velocity;] *)
Definition moveObjects (dt : F)
    (physicsObjs : list (SveGameObject F)) : list (SveGameObject F) :=
  (fun obj => set_translation obj
                (translation (transform2d obj) +v dt *v velocity (rigidBody2d obj)))
  <$> physicsObjs.

(** [void stepSimulation(std::vector<SveGameObject>& physicsObjs, float dt)] *)
Definition stepSimulation (physicsObjs : list (SveGameObject F)) (dt : F)
    : list (SveGameObject F) :=
  moveObjects dt (pairLoop dt physicsObjs).

(** [void update(std::vector<SveGameObject>& objs, float dt, unsigned int substeps = 1)].
    [dt / substeps] converts [substeps] to [float].  [i < substeps]
    compares the counter as an [unsigned int], so the body runs once for
    each of its values [0, 1, ..., substeps - 1]. *)
Definition update (objs : list (SveGameObject F)) (dt : F) (substeps : N)
    : list (SveGameObject F) :=
  let stepDelta := dt / of_uint substeps in
  N.iter substeps (fun objs => stepSimulation objs stepDelta) objs.
End Methods.
End GravityPhysicsSystem.

(** ** class Vec2FieldSystem *)

Module Vec2FieldSystem.
Section Methods.
Context {F : Type} {ops : Scalar F} {lib : Libm F}.
Local Open Scope fp_scope.
Local Open Scope vec_scope.

(** [glm::vec2 direction{}; for (auto& obj : physicsObjs) direction += physicsSystem.computeForce(obj, vf);] *)
Definition netForce (physicsSystem : GravityPhysicsSystem.t F)
    (physicsObjs : list (SveGameObject F)) (vf : SveGameObject F) : vec2 F :=
  foldl (fun direction obj =>
           direction +v GravityPhysicsSystem.computeForce physicsSystem obj vf)
        vzero physicsObjs.

(** The two assignments that end the body of the outer loop. *)
Definition orient (direction : vec2 F) (vf : SveGameObject F) : SveGameObject F :=
  let vf := set_scale_x vf
              (f_0_005 + f_0_045 * clamp (flog (length2 direction + f_1) / f_3) f_0 f_1) in
  set_rotation vf (fatan2 (y direction) (x direction)).

(** [void update(const GravityPhysicsSystem&, std::vector<SveGameObject>& physicsObjs,
                 std::vector<SveGameObject>& vectorField)]:
    both vectors are passed by reference, so both are returned. *)
Definition update (physicsSystem : GravityPhysicsSystem.t F)
    (physicsObjs vectorField : list (SveGameObject F))
    : list (SveGameObject F) * list (SveGameObject F) :=
  (physicsObjs,
   (fun vf => orient (netForce physicsSystem physicsObjs vf) vf) <$> vectorField).
End Methods.
End Vec2FieldSystem.

(** ** FirstApp::run: the two collections and the calls of a frame *)

Module FirstApp.
(** The two vectors that [run] owns. *)
Record World (F : Type) := {
  physicsObjects : list (SveGameObject F);
  vectorField : list (SveGameObject F)
}.
Arguments physicsObjects {F} _.
Arguments vectorField {F} _.

Section Frame.
Context {F : Type} {ops : Scalar F} {lib : Libm F}.
Variable gravitySystem : GravityPhysicsSystem.t F.
Local Open Scope fp_scope.

(** [gravitySystem.update(physicsObjects, dt, substeps);] *)
Definition updateGravity (dt : F) (substeps : N) (w : World F) : World F :=
  {| physicsObjects :=
       GravityPhysicsSystem.update gravitySystem (physicsObjects w) dt substeps;
     vectorField := vectorField w |}.

(** [vecFieldSystem.update(gravitySystem, physicsObjects, vectorField);] *)
Definition updateVecField (w : World F) : World F :=
  let '(physicsObjs, field) :=
    Vec2FieldSystem.update gravitySystem (physicsObjects w) (vectorField w) in
  {| physicsObjects := physicsObjs; vectorField := field |}.

(** The systems' part of one pass of the render loop:
    [gravitySystem.update(physicsObjects, 1.f / 60, 5)] and then the
    field's update. *)
Definition frame (w : World F) : World F :=
  updateVecField (updateGravity (f_1 / of_uint 60) 5 w).
End Frame.
End FirstApp.

(** ** The two arithmetics *)

(** Exact real arithmetic; [glm::log] is the natural logarithm, and
    [atan2] is left to the C library. *)
Module Real.
Definition ltb (a c : R) : bool := if Rlt_dec a c then true else false.
Definition geb (a c : R) : bool := if Rge_dec a c then true else false.

#[global] Instance scalar : Scalar R := {|
  fadd := Rplus; fsub := Rminus; fmul := Rmult; fdiv := Rdiv;
  fneg := Ropp; fabs := Rabs; fsqrt := sqrt; flt := ltb; fge := geb;
  of_uint := fun n => IZR (Z.of_N n);
  f_0 := 0%R; f_1 := 1%R; f_3 := 3%R;
  f_1e_10 := 1e-10%R; f_0_005 := 0.005%R; f_0_045 := 0.045%R
|}.

Definition libm (atan2 : R -> R -> R) : Libm R :=
  {| flog := ln; fatan2 := atan2 |}.

(** The angle of the point [(x, y)], in [(-PI, PI]], and [0] at the
    origin: the [atan2] of the witnesses. *)
Definition atan2 (y x : R) : R :=
  if Rlt_dec 0 x then atan (y / x)
  else if Rlt_dec x 0 then
    if Rle_dec 0 y then (atan (y / x) + PI)%R else (atan (y / x) - PI)%R
  else if Rlt_dec 0 y then (PI / 2)%R
  else if Rlt_dec y 0 then (- PI / 2)%R else 0%R.

(** A body of mass [m] at [(px, py)] with velocity [(vx, vy)], unit
    scale and no rotation. *)
Definition body (m px py vx vy : R) : SveGameObject R :=
  {| model := 0; color := Vec3 1%R 1%R 1%R;
     transform2d := {| translation := Vec2 px py; scale := Vec2 1%R 1%R; rotation := 0%R |};
     rigidBody2d := {| velocity := Vec2 vx vy; mass := m |} |}.
End Real.

(** IEEE-754 binary32 ([float]): 24 bits of precision, round to nearest,
    ties to even.  A decimal literal is the correctly rounded quotient of
    two integers that binary32 represents exactly. *)
Module Binary32.
Definition prec : Z := 24.
Definition emax : Z := 128.

Definition of_Z (z : Z) : spec_float := binary_normalize prec emax z 0 false.

(** The literal [m]e-[k], for [m < 2^24] and [k <= 10]: then [m] and
    [10^k = 5^k * 2^k] are binary32 numbers and the quotient is rounded
    once, to the binary32 number nearest to the decimal. *)
Definition dec (m : Z) (k : positive) : spec_float :=
  SFdiv prec emax (of_Z m) (of_Z (Z.pow_pos 10 k)).

#[global] Instance scalar : Scalar spec_float := {|
  fadd := SFadd prec emax; fsub := SFsub prec emax;
  fmul := SFmul prec emax; fdiv := SFdiv prec emax;
  fneg := SFopp; fabs := SFabs; fsqrt := SFsqrt prec emax; flt := SFltb;
  fge := fun a c => SFleb c a;
  of_uint := fun n => of_Z (Z.of_N n);
  f_0 := S754_zero false; f_1 := of_Z 1; f_3 := of_Z 3;
  f_1e_10 := dec 1 10; f_0_005 := dec 5 3; f_0_045 := dec 45 3
|}.

(** [==] on floats and on vectors *)
Definition veqb (u v : vec2 spec_float) : bool :=
  SFeqb (x u) (x v) && SFeqb (y u) (y v).

(** A body of mass [m] at rest at [(px, py)], with unit scale and no
    rotation. *)
Definition body (m px py : spec_float) : SveGameObject spec_float :=
  {| model := 0; color := Vec3 f_1 f_1 f_1;
     transform2d := {| translation := Vec2 px py; scale := Vec2 f_1 f_1; rotation := f_0 |};
     rigidBody2d := {| velocity := Vec2 f_0 f_0; mass := m |} |}.

(** A binary32 number or an infinity: not a NaN, and in the canonical
    form that every operation of IEEE arithmetic returns. *)
Definition number (a : spec_float) : bool :=
  match a with
  | S754_nan => false
  | _ => valid_binary prec emax a
  end.

(** The C library at the arguments where the C standard (Annex F) fixes
    its value exactly: [log(1) = +0], [log(+inf) = +inf],
    [atan2(+-0, +0) = +-0]; elsewhere the library rounds, and this
    table says nothing (NaN).  The worked examples use a library that
    agrees with it; the theorems hold for every library. *)
Definition special_values : Libm spec_float := {|
  flog := fun a =>
    match a with
    | S754_infinity false => S754_infinity false
    | S754_finite false 8388608 (-23) => S754_zero false
    | _ => S754_nan
    end;
  fatan2 := fun y x =>
    match y, x with
    | S754_zero s, S754_zero false => S754_zero s
    | _, _ => S754_nan
    end
|}.

(** *** What rounding is

    The vocabulary of the proofs about rounding: the shift register of
    [SpecFloat], the value of a number, and what a rounding of a value
    is. *)
Local Open Scope Z_scope.

(** sticky: some bit has been shifted out *)
Definition inexact (mrs : shr_record) : bool := shr_r mrs || shr_s mrs.

(** [mrs'] is [mrs] shifted right by [k] places *)
Definition shifted (k : Z) (mrs mrs' : shr_record) : Prop :=
  shr_m mrs' = shr_m mrs / 2 ^ k
  /\ (inexact mrs' = false <-> inexact mrs = false /\ shr_m mrs mod 2 ^ k = 0).

(** the value [m * 2^e], scaled by [2^400] *)
Definition sc (m e : Z) : Z := m * 2 ^ (e + 400).

(** the canonical form of binary32: the exponent is the one of the format *)
Definition canonical (m e : Z) : Prop := fexp prec emax (Zdigits2 m + e) = e.

(** zero, a canonical positive number, or plus infinity *)
Definition nonneg_number (r : spec_float) : Prop :=
  r = S754_zero false \/ r = S754_infinity false
  \/ exists m e, r = S754_finite false m e /\ bounded prec emax m e = true.

(** [r] is a rounding of the value [v] (scaled): every binary32 number
    on one side of [v] is on the same side of [r] *)
Definition rounds (v : Z) (r : spec_float) : Prop :=
  nonneg_number r
  /\ forall M E, bounded prec emax M E = true ->
       (sc (Z.pos M) E <= v -> SFleb (S754_finite false M E) r = true)
       /\ (v <= sc (Z.pos M) E -> SFleb r (S754_finite false M E) = true).
End Binary32.

(** ** What the specification says, in its own words *)

Module Spec.
(** "every unordered pair (A, B) with A ≠ B", as the positions
    [(i, j)] with [i] from [0..n] and [j] from [i+1..n] *)
Definition unorderedPairs (n : nat) : list (nat * nat) :=
  i ← seq 0 n; pair i <$> seq (S i) (n - S i).

Section InEveryArithmetic.
Context {F : Type} {ops : Scalar F}.
Variable simulator : GravityPhysicsSystem.t F.
Local Open Scope vec_scope.

(** "compute force = computeForce(A, B); update
    A.velocity -= dt_step * force / A.mass; update
    B.velocity += dt_step * force / B.mass", for the pair at positions
    [p] of [bodies], the bodies as they are when the step begins *)
Definition pairUpdate (dt_step : F) (bodies : list (SveGameObject F))
    (p : nat * nat) (st : list (SveGameObject F)) : list (SveGameObject F) :=
  match bodies !! p.1, bodies !! p.2 with
  | Some A, Some B =>
      let force := GravityPhysicsSystem.computeForce simulator A B in
      alter (fun body => set_velocity body
               (velocity (rigidBody2d body) +v dt_step *v force /v mass (rigidBody2d B)))
            p.2
        (alter (fun body => set_velocity body
                  (velocity (rigidBody2d body) -v dt_step *v force /v mass (rigidBody2d A)))
               p.1 st)
  | _, _ => st
  end.

(** "for every body: position += dt_step * velocity" *)
Definition advance (dt_step : F) (body : SveGameObject F) : SveGameObject F :=
  set_translation body
    (translation (transform2d body) +v dt_step *v velocity (rigidBody2d body)).

(** one internal step: the pairwise velocity updates of every
    unordered pair, then the position updates *)
Definition step (dt_step : F) (bodies : list (SveGameObject F))
    : list (SveGameObject F) :=
  advance dt_step
  <$> foldl (fun st p => pairUpdate dt_step bodies p st) bodies
            (unorderedPairs (length bodies)).

(** The same step, body by body: what visiting the pair at positions [p]
    does to the velocity [v] of the body at position [k]. "update
    A.velocity -= dt_step * force / A.mass; update
    B.velocity += dt_step * force / B.mass", with the force between the
    bodies as they are when the step begins. *)
Definition pairVelocity (dt_step : F) (bodies : list (SveGameObject F)) (k : nat)
    (v : vec2 F) (p : nat * nat) : vec2 F :=
  match bodies !! p.1, bodies !! p.2 with
  | Some A, Some B =>
      let force := GravityPhysicsSystem.computeForce simulator A B in
      let v := if decide (k = p.1)
               then v -v dt_step *v force /v mass (rigidBody2d A) else v in
      if decide (k = p.2)
      then v +v dt_step *v force /v mass (rigidBody2d B) else v
  | _, _ => v
  end.

(** the velocity of the body at position [k] "after all pairwise
    velocity updates for the step are applied" *)
Definition velocityAfter (dt_step : F) (bodies : list (SveGameObject F)) (k : nat)
    (v : vec2 F) : vec2 F :=
  foldl (pairVelocity dt_step bodies k) v (unorderedPairs (length bodies)).

(** "accumulate direction = Σ simulator.computeForce(B, P) over every
    body B in bodies": the forces added one after the other, in the
    order of the sequence, to the zero vector *)
Definition fieldSum (bodies : list (SveGameObject F)) (P : SveGameObject F) : vec2 F :=
  foldl vadd vzero ((fun B => GravityPhysicsSystem.computeForce simulator B P) <$> bodies).

(** "Σ simulator.computeForce(B, P) over every body B in bodies" *)
Definition fieldAt (bodies : list (SveGameObject F)) (P : SveGameObject F) : vec2 F :=
  foldr vadd vzero ((fun B => GravityPhysicsSystem.computeForce simulator B P) <$> bodies).
End InEveryArithmetic.
End Spec.

(** ** The models and the vector field of FirstApp::run *)

(** The literals of [createSquareModel] and of the grid of [run] that
    [Scalar] does not have ([-0.5f] and [-1.0f] are the negations of
    literals), and what [createCircleModel] takes from GLM. *)
Class ModelLiterals (F : Type) := {
  f_0_5 : F;                (* 0.5f *)
  f_2 : F                   (* 2.0f *)
}.
Class Trig (F : Type) := {
  fcos : F -> F;            (* glm::cos *)
  fsin : F -> F;            (* glm::sin *)
  f_two_pi : F              (* glm::two_pi<float>() *)
}.

#[global] Instance real_literals : ModelLiterals R := {| f_0_5 := 0.5%R; f_2 := 2%R |}.
#[global] Instance real_trig : Trig R := {| fcos := cos; fsin := sin; f_two_pi := (2 * PI)%R |}.
#[global] Instance binary32_literals : ModelLiterals spec_float :=
  {| f_0_5 := Binary32.dec 5 1; f_2 := Binary32.of_Z 2 |}.

Module SveModel.
(** [sve_model.hpp] is not among the sources.  [first_app.cpp] builds a
    [Vertex] from a position, or from a position and a colour, and names
    the member [position]. *)
Record Vertex (F : Type) := { position : vec2 F; color : vec3 F }.
Arguments position {F} _.
Arguments color {F} _.
End SveModel.

Section Models.
Context {F : Type} {ops : Scalar F} {lits : ModelLiterals F}.
Local Open Scope fp_scope.
Local Open Scope vec_scope.

(** The colour of a vertex that is built without one, [{{x, y}}] or [{}]. *)
Variable unset : vec3 F.

(** [{{x, y}}] *)
Definition vertexAt (p : vec2 F) : SveModel.Vertex F :=
  {| SveModel.position := p; SveModel.color := unset |}.

(** The conversion of an [int] that is not negative. *)
Definition of_index (i : nat) : F := of_uint (N.of_nat i).

(** [createSquareModel(device, offset)]: the vertices it hands to the
    model, the six of the list with [v.position += offset] for each. *)
Definition createSquareModel (offset : vec2 F) : list (SveModel.Vertex F) :=
  (fun v => {| SveModel.position := SveModel.position v +v offset;
               SveModel.color := SveModel.color v |})
  <$> [vertexAt (Vec2 (- f_0_5) (- f_0_5));
       vertexAt (Vec2 f_0_5 f_0_5);
       vertexAt (Vec2 (- f_0_5) f_0_5);
       vertexAt (Vec2 (- f_0_5) (- f_0_5));
       vertexAt (Vec2 f_0_5 (- f_0_5));
       vertexAt (Vec2 f_0_5 f_0_5)].

(** The first loop of [createCircleModel] and the [push_back] after it:
    [numSides] vertices at the angles [i * two_pi / numSides], and the
    centre. *)
Definition uniqueVertices {trig : Trig F} (numSides : nat) : list (SveModel.Vertex F) :=
  ((fun i =>
      let angle := of_index i * f_two_pi / of_index numSides in
      vertexAt (Vec2 (fcos angle) (fsin angle)))
   <$> seq 0 numSides)
  ++ [vertexAt (Vec2 f_0 f_0)].

(** The second loop, for any [uniqueVertices]: three [operator[]] reads
    for each [i].  A read is [None] when its index is past the end of
    the vector. *)
Definition fan (unique : list (SveModel.Vertex F)) (numSides : nat)
    : option (list (SveModel.Vertex F)) :=
  foldr (fun i rest =>
           a ← unique !! i;
           c ← unique !! ((i + 1) mod numSides);
           o ← unique !! numSides;
           vertices ← rest;
           Some (a :: c :: o :: vertices))
        (Some []) (seq 0 numSides).

(** [createCircleModel(device, numSides)]: the vertices it hands to the
    model. *)
Definition createCircleModel {trig : Trig F} (numSides : nat)
    : option (list (SveModel.Vertex F)) :=
  fan (uniqueVertices numSides) numSides.

(** [obj.transform2d.scale = s], [obj.color = c], [obj.model = m] *)
Definition set_scale (obj : SveGameObject F) (s : vec2 F) : SveGameObject F :=
  {| model := model obj; color := color obj;
     transform2d := {| translation := translation (transform2d obj); scale := s;
                       rotation := rotation (transform2d obj) |};
     rigidBody2d := rigidBody2d obj |}.
Definition set_color (obj : SveGameObject F) (c : vec3 F) : SveGameObject F :=
  {| model := model obj; color := c; transform2d := transform2d obj;
     rigidBody2d := rigidBody2d obj |}.
Definition set_model (obj : SveGameObject F) (m : nat) : SveGameObject F :=
  {| model := m; color := color obj; transform2d := transform2d obj;
     rigidBody2d := rigidBody2d obj |}.

(** The body of the two loops of [run] that fill [vectorField], for the
    object [vf] that [createGameObject] returned. *)
Definition fieldLine (squareModel gridCount i j : nat) (vf : SveGameObject F)
    : SveGameObject F :=
  let vf := set_scale vf (Vec2 f_0_005 f_0_005) in
  let vf := set_translation vf
              (Vec2 (- f_1 + (of_index i + f_0_5) * f_2 / of_index gridCount)
                    (- f_1 + (of_index j + f_0_5) * f_2 / of_index gridCount)) in
  let vf := set_color vf (Vec3 f_1 f_1 f_1) in
  set_model vf squareModel.

(** The two loops: [i] outside, [j] inside, one [push_back] each. *)
Definition makeVectorField (squareModel gridCount : nat) (created : SveGameObject F)
    : list (SveGameObject F) :=
  i ← seq 0 gridCount; (fun j => fieldLine squareModel gridCount i j created) <$> seq 0 gridCount.
End Models.

(** A binary32 number that is neither an infinity nor a NaN. *)
Definition finite32 (a : spec_float) : bool :=
  match a with
  | S754_zero _ | S754_finite _ _ _ => true
  | S754_infinity _ | S754_nan => false
  end.

(** a finite binary32 number, of either sign, in canonical form *)
Definition finite_number (a : spec_float) : Prop :=
  Binary32.number a = true /\ finite32 a = true.

Section Measures.
Context {F : Type} {ops : Scalar F}.
Local Open Scope vec_scope.

(** What [GravityPhysicsSystem] has no business with: all of an object
    but its position and its velocity. *)
Definition kept (obj : SveGameObject F) : nat * vec3 F * vec2 F * F * F :=
  (model obj, color obj, scale (transform2d obj), rotation (transform2d obj),
   mass (rigidBody2d obj)).

(** An object moved by [t]. *)
Definition shift (t : vec2 F) (obj : SveGameObject F) : SveGameObject F :=
  set_translation obj (translation (transform2d obj) +v t).

(** The total momentum of the bodies, the sum of [mass * velocity]. *)
Definition momentum (objs : list (SveGameObject F)) : vec2 F :=
  foldr vadd vzero
        ((fun obj => mass (rigidBody2d obj) *v velocity (rigidBody2d obj)) <$> objs).
End Measures.

(** * Facts that hold in every arithmetic *)

Section Folds.
Context {A B : Type}.

Lemma foldl_invariant (P : A -> Prop) (f h : A -> B -> A) (l : list B) (a : A) :
  P a ->
  (forall a' e, e ∈ l -> P a' -> f a' e = h a' e /\ P (f a' e)) ->
  foldl f a l = foldl h a l /\ P (foldl f a l).
Proof.
  revert a. induction l as [|e l IH]; intros a Ha Hstep; [done|].
  destruct (Hstep a e) as [Heq HP]; [left|done|].
  cbn. rewrite <- Heq. apply IH; [done|].
  intros a' e' He'. apply Hstep. by right.
Qed.

Lemma foldl_bind_list {C : Type} (f : A -> B -> A) (k : C -> list B) (l : list C) (a : A) :
  foldl f a (l ≫= k) = foldl (fun a' c => foldl f a' (k c)) a l.
Proof.
  revert a. induction l as [|c l IH]; intros a; [done|].
  cbn. by rewrite foldl_app, IH.
Qed.
End Folds.

Section EveryArithmetic.
Context {F : Type} {ops : Scalar F}.
Variable self : GravityPhysicsSystem.t F.
Import GravityPhysicsSystem.

Lemma computeForce_placed (a a' c c' : SveGameObject F) :
  placed a = placed a' -> placed c = placed c' ->
  computeForce self a c = computeForce self a' c'.
Proof.
  unfold placed, computeForce. intros [= Ht Hm] [= Ht' Hm'].
  by rewrite Ht, Hm, Ht', Hm'.
Qed.

Lemma placed_set_velocity (obj : SveGameObject F) (v : vec2 F) :
  placed (set_velocity obj v) = placed obj.
Proof. done. Qed.

Lemma placed_alter_velocity (k : SveGameObject F -> vec2 F) (i : nat)
    (objs : list (SveGameObject F)) :
  placed <$> alter (fun o => set_velocity o (k o)) i objs = placed <$> objs.
Proof.
  apply list_eq; intros j. rewrite !list_lookup_fmap.
  destruct (decide (i = j)) as [->|Hne].
  - rewrite list_lookup_alter_eq. by destruct (objs !! j).
  - by rewrite list_lookup_alter_ne.
Qed.

Lemma applyForce_length (dt : F) (i j : nat) (objs : list (SveGameObject F)) :
  length (applyForce self dt i j objs) = length objs.
Proof.
  unfold applyForce. destruct (objs !! i), (objs !! j); try done.
  by rewrite !length_alter.
Qed.

Lemma applyForce_placed (dt : F) (i j : nat) (objs : list (SveGameObject F)) :
  placed <$> applyForce self dt i j objs = placed <$> objs.
Proof.
  unfold applyForce. destruct (objs !! i), (objs !! j); try done.
  by rewrite !placed_alter_velocity.
Qed.

(** The inner loop skips [iterB = iterA] and runs the body for the
    later elements. *)
Lemma innerLoop_later (dt : F) (i : nat) (objs : list (SveGameObject F)) :
  innerLoop self dt i objs
  = foldl (fun st j => applyForce self dt i j st) objs
          (seq (S i) (length objs - S i)).
Proof.
  unfold innerLoop.
  destruct (decide (i < length objs)) as [Hlt|Hge].
  - replace (length objs - i) with (S (length objs - S i)) by lia.
    cbn [seq foldl]. rewrite decide_True by done.
    apply (foldl_invariant (fun _ => True)); [done|].
    intros st j Hj _. apply elem_of_seq in Hj.
    by rewrite decide_False by lia.
  - by replace (length objs - i) with 0 by lia;
      replace (length objs - S i) with 0 by lia.
Qed.

Lemma innerLoop_length (dt : F) (i : nat) (objs : list (SveGameObject F)) :
  length (innerLoop self dt i objs) = length objs.
Proof.
  rewrite innerLoop_later.
  generalize (seq (S i) (length objs - S i)). intros l.
  revert objs. induction l as [|j l IH]; intros objs; [done|].
  cbn. by rewrite IH, applyForce_length.
Qed.

(** The two loops run the body once for each unordered pair, in the
    order of [Spec.unorderedPairs]. *)
Lemma pairLoop_pairs (dt : F) (objs : list (SveGameObject F)) :
  pairLoop self dt objs
  = foldl (fun st p => applyForce self dt p.1 p.2 st) objs
          (Spec.unorderedPairs (length objs)).
Proof.
  unfold pairLoop, Spec.unorderedPairs. rewrite foldl_bind_list.
  apply (foldl_invariant (fun st => length st = length objs)); [done|].
  intros st i _ Hlen. split.
  - by rewrite innerLoop_later, foldl_fmap, Hlen.
  - by rewrite innerLoop_length.
Qed.

Lemma pairLoop_length (dt : F) (objs : list (SveGameObject F)) :
  length (pairLoop self dt objs) = length objs.
Proof.
  rewrite pairLoop_pairs. generalize (Spec.unorderedPairs (length objs)). intros l.
  revert objs. induction l as [|p l IH]; intros objs; [done|].
  cbn. by rewrite IH, applyForce_length.
Qed.

(** No position and no mass changes while the pairs are visited. *)
Lemma pairLoop_placed (dt : F) (objs : list (SveGameObject F)) :
  placed <$> pairLoop self dt objs = placed <$> objs.
Proof.
  rewrite pairLoop_pairs. generalize (Spec.unorderedPairs (length objs)). intros l.
  revert objs. induction l as [|p l IH]; intros objs; [done|].
  cbn. by rewrite IH, applyForce_placed.
Qed.

Lemma update_nil (dt : F) (substeps : N) : update self [] dt substeps = [].
Proof.
  unfold update. generalize (fdiv dt (of_uint substeps)). intros stepDelta.
  induction substeps as [|n IH] using N.peano_ind; [done|].
  by rewrite N.iter_succ, IH.
Qed.
End EveryArithmetic.

(** * The pairs of a step *)

Section Pairs.
Lemma unorderedPairs_elem (n i j : nat) :
  (i, j) ∈ Spec.unorderedPairs n <-> i < j < n.
Proof.
  unfold Spec.unorderedPairs. rewrite list_elem_of_bind. split.
  - intros (k & Hin & Hk). apply list_elem_of_fmap in Hin as (j' & [= -> ->] & Hj).
    apply elem_of_seq in Hj. lia.
  - intros Hij. exists i. split.
    + apply list_elem_of_fmap. exists j. split; [done|]. apply elem_of_seq. lia.
    + apply elem_of_seq. lia.
Qed.

Lemma unorderedPairs_NoDup (n : nat) : NoDup (Spec.unorderedPairs n).
Proof.
  unfold Spec.unorderedPairs. apply NoDup_bind.
  - intros i1 i2 q _ _ H1 H2.
    apply list_elem_of_fmap in H1 as (? & -> & _).
    by apply list_elem_of_fmap in H2 as (? & [= ? ?] & _).
  - intros i _. apply NoDup_fmap_2; [|apply NoDup_seq].
    by intros ?? [= ?].
  - apply NoDup_seq.
Qed.
End Pairs.

(** * A step of the program is a step of the specification *)

(** The program adds [dt * -force / m] where the specification subtracts
    [dt * force / m].  The two agree in an arithmetic with the law of
    signs, and the reals and binary32 both have it. *)
Section Lawful.
Context {F : Type} {ops : Scalar F} {laws : ScalarLaws F}.
Variable self : GravityPhysicsSystem.t F.
Import GravityPhysicsSystem.
Local Open Scope vec_scope.

Lemma add_negated (v force : vec2 F) (dt m : F) :
  v +v dt *v -v force /v m = v -v dt *v force /v m.
Proof. unfold vadd, vsub. cbn. by rewrite !sign_law. Qed.

(** The body of the loops is the specification's update of the pair,
    as long as no position and no mass has changed since the step began. *)
Lemma applyForce_pairUpdate (dt : F) (bodies st : list (SveGameObject F)) (p : nat * nat) :
  placed <$> st = placed <$> bodies ->
  applyForce self dt p.1 p.2 st = Spec.pairUpdate self dt bodies p st.
Proof.
  intros Hfix. unfold applyForce, Spec.pairUpdate.
  assert (Hat : forall k, placed <$> st !! k = placed <$> bodies !! k).
  { intros k. by rewrite <- !list_lookup_fmap, Hfix. }
  pose proof (Hat p.1) as H1. pose proof (Hat p.2) as H2.
  destruct (st !! p.1) as [a|] eqn:Ea, (bodies !! p.1) as [A|]; try done.
  destruct (st !! p.2) as [c|] eqn:Ec, (bodies !! p.2) as [C|]; try done.
  injection H1 as Ht1 Hm1. injection H2 as Ht2 Hm2.
  rewrite (computeForce_placed self a A c C) by (unfold placed; congruence).
  apply list_alter_ext.
  - intros o Ho. f_equal. f_equal.
    assert (Hm : placed <$> Some o = placed <$> Some c).
    { rewrite <- Ho, <- Ec, <- !list_lookup_fmap.
      by rewrite placed_alter_velocity. }
    injection Hm as _ Hm. congruence.
  - apply list_alter_ext; [|done].
    intros o Ho. f_equal. rewrite add_negated. f_equal.
    rewrite Ea in Ho. congruence.
Qed.

Lemma stepSimulation_refines (dt : F) (bodies : list (SveGameObject F)) :
  stepSimulation self bodies dt = Spec.step self dt bodies.
Proof.
  unfold stepSimulation, Spec.step, moveObjects. f_equal.
  rewrite pairLoop_pairs.
  apply (foldl_invariant (fun st => placed <$> st = placed <$> bodies)); [done|].
  intros st p _ Hfix. split.
  - by apply applyForce_pairUpdate.
  - by rewrite applyForce_placed.
Qed.

(** What the pairwise updates do to one body: they change its velocity,
    pair by pair, and nothing else of it. *)
Lemma pairUpdate_lookup (dt : F) (bodies : list (SveGameObject F)) (k : nat)
    (l : list (nat * nat)) (st : list (SveGameObject F)) (o : SveGameObject F) :
  st !! k = Some o ->
  exists o',
    foldl (fun st p => Spec.pairUpdate self dt bodies p st) st l !! k = Some o'
    /\ velocity (rigidBody2d o') = foldl (Spec.pairVelocity self dt bodies k) (velocity (rigidBody2d o)) l
    /\ mass (rigidBody2d o') = mass (rigidBody2d o)
    /\ transform2d o' = transform2d o
    /\ model o' = model o /\ color o' = color o.
Proof.
  revert st o. induction l as [|p l IH]; intros st o Hk; [by exists o|].
  cbn [foldl].
  assert (Hone : exists o1,
    Spec.pairUpdate self dt bodies p st !! k = Some o1
    /\ velocity (rigidBody2d o1) = Spec.pairVelocity self dt bodies k (velocity (rigidBody2d o)) p
    /\ mass (rigidBody2d o1) = mass (rigidBody2d o)
    /\ transform2d o1 = transform2d o
    /\ model o1 = model o /\ color o1 = color o).
  { unfold Spec.pairUpdate, Spec.pairVelocity.
    destruct (bodies !! p.1) as [A|]; [|by exists o].
    destruct (bodies !! p.2) as [B|]; [|by exists o].
    cbn zeta.
    destruct (decide (k = p.2)) as [E2|H2], (decide (k = p.1)) as [E1|H1].
    - rewrite <- E2, list_lookup_alter_eq, <- E1, list_lookup_alter_eq, Hk. by eexists.
    - rewrite <- E2, list_lookup_alter_eq, list_lookup_alter_ne, Hk by done. by eexists.
    - rewrite list_lookup_alter_ne, <- E1, list_lookup_alter_eq, Hk by congruence.
      by eexists.
    - rewrite !list_lookup_alter_ne, Hk by done. by eexists. }
  destruct Hone as (o1 & H1 & Hv1 & Hm1 & Ht1 & Hmo1 & Hc1).
  destruct (IH _ _ H1) as (o' & H' & Hv' & Hm' & Ht' & Hmo' & Hc').
  exists o'. rewrite Hv1 in Hv'. split_and!; congruence.
Qed.

(** One internal step, body by body. *)
Lemma stepSimulation_lookup (dt : F) (objs : list (SveGameObject F)) (k : nat)
    (obj : SveGameObject F) :
  objs !! k = Some obj ->
  exists obj',
    stepSimulation self objs dt !! k = Some obj'
    /\ velocity (rigidBody2d obj')
       = Spec.velocityAfter self dt objs k (velocity (rigidBody2d obj))
    /\ translation (transform2d obj')
       = translation (transform2d obj) +v dt *v velocity (rigidBody2d obj')
    /\ mass (rigidBody2d obj') = mass (rigidBody2d obj).
Proof.
  intros Hk. rewrite stepSimulation_refines. unfold Spec.step.
  destruct (pairUpdate_lookup dt objs k (Spec.unorderedPairs (length objs)) objs obj Hk)
    as (o' & H' & Hv' & Hm' & Ht' & _).
  exists (Spec.advance dt o'). rewrite list_lookup_fmap, H'. split_and!; [done|done| |done].
  cbn. by rewrite Ht', Hv'.
Qed.
End Lawful.

(** * Exact real arithmetic *)

Section RealArithmetic.
Variable self : GravityPhysicsSystem.t R.
Import GravityPhysicsSystem.
Local Open Scope R_scope.
Local Open Scope vec_scope.

Lemma ltb_lt (a c : R) : Real.ltb a c = true <-> a < c.
Proof. unfold Real.ltb. destruct (Rlt_dec a c); split; intros; try done; lra. Qed.

Lemma ltb_ge (a c : R) : Real.ltb a c = false <-> a >= c.
Proof. unfold Real.ltb. destruct (Rlt_dec a c); split; intros; try done; lra. Qed.

Lemma vec2_eq (u v : vec2 R) : x u = x v -> y u = y v -> u = v.
Proof. destruct u, v; cbn; congruence. Qed.

Lemma geb_ge (a c : R) : Real.geb a c = true <-> a >= c.
Proof. unfold Real.geb. destruct (Rge_dec a c); split; intros; try done; lra. Qed.

#[global] Instance real_laws : ScalarLaws R.
Proof.
  split.
  - intros a c Hge. apply ltb_ge. by apply geb_ge.
  - intros a d f m. cbn. unfold Rdiv. ring.
Qed.

Lemma stepSimulation_step (dt : R) (bodies : list (SveGameObject R)) :
  stepSimulation self bodies dt = Spec.step self dt bodies.
Proof. apply stepSimulation_refines. Qed.
End RealArithmetic.

(** * Binary32 arithmetic *)

Section Binary32Arithmetic.
Import GravityPhysicsSystem Binary32.
Local Open Scope Z_scope.
Local Open Scope vec_scope.

(** Rounding does not look at the sign. *)
Lemma binary_round_aux_opp (s : bool) (m e : Z) (l : location) :
  SFopp (binary_round_aux prec emax s m e l) = binary_round_aux prec emax (negb s) m e l.
Proof.
  unfold binary_round_aux.
  destruct (shr_fexp prec emax m e l) as [mrs' e'].
  destruct (shr_fexp prec emax _ e' loc_Exact) as [mrs'' e''].
  destruct (shr_m mrs''); try reflexivity.
  destruct (Z.leb e'' _); reflexivity.
Qed.

Lemma SFmul_opp_r (d f : spec_float) :
  SFmul prec emax d (SFopp f) = SFopp (SFmul prec emax d f).
Proof.
  destruct d as [sd|sd| |sd md ed], f as [sf|sf| |sf mf ef]; cbn;
    rewrite ?binary_round_aux_opp; try reflexivity;
    destruct sd, sf; reflexivity.
Qed.

Lemma SFdiv_opp_l (u m : spec_float) :
  SFdiv prec emax (SFopp u) m = SFopp (SFdiv prec emax u m).
Proof.
  destruct u as [su|su| |su mu eu], m as [sm|sm| |sm mm em]; cbn;
    try (destruct (SFdiv_core_binary prec emax _ _ _ _) as [[mz ez] lz]);
    rewrite ?binary_round_aux_opp; try reflexivity;
    destruct su, sm; reflexivity.
Qed.

Lemma SFadd_opp_r (a v : spec_float) :
  SFadd prec emax a (SFopp v) = SFsub prec emax a v.
Proof.
  destruct a as [sa|sa| |sa ma ea], v as [sv|sv| |sv mv ev]; cbn;
    try reflexivity; destruct sa, sv; reflexivity.
Qed.

Lemma SFcompare_antisym (a c : spec_float) :
  SFcompare c a = match SFcompare a c with Some o => Some (CompOpp o) | None => None end.
Proof.
  destruct a as [sa|sa| |sa ma ea], c as [sc|sc| |sc mc ec]; cbn;
    try reflexivity; try (destruct sa, sc; reflexivity);
    try (destruct sa; reflexivity); try (destruct sc; reflexivity).
  destruct sa, sc; try reflexivity;
    rewrite (Z.compare_antisym ea ec); destruct (ea ?= ec); cbn; try reflexivity;
    pose proof (Pos.compare_cont_antisym ma mc Eq) as Hm; cbn in Hm; rewrite <- Hm;
    destruct (Pos.compare_cont Eq ma mc); reflexivity.
Qed.

Lemma SFleb_not_ltb (a c : spec_float) : SFleb c a = true -> SFltb a c = false.
Proof.
  unfold SFleb, SFltb. rewrite (SFcompare_antisym a c).
  destruct (SFcompare a c) as [[]|]; cbn; congruence.
Qed.

#[global] Instance binary32_laws : ScalarLaws spec_float.
Proof.
  split.
  - intros a c. apply SFleb_not_ltb.
  - intros a d f m. cbn. by rewrite SFmul_opp_r, SFdiv_opp_l, SFadd_opp_r.
Qed.
End Binary32Arithmetic.

(** * The force law *)

Section ForceLaw.
Import GravityPhysicsSystem.
Local Open Scope R_scope.
Local Open Scope vec_scope.



(** Over the reals the condition of C1 is [Rabs distanceSquared >= 1e-10]. *)
Lemma computeForce_inverse_square_real
    (self : GravityPhysicsSystem.t R) (source target : SveGameObject R) :
  let offset := translation (transform2d source) -v translation (transform2d target) in
  let distanceSquared := dot offset offset in
  Rabs distanceSquared >= 1e-10 ->
  computeForce self source target
  = (strengthGravity self * mass (rigidBody2d target) * mass (rigidBody2d source)
     / distanceSquared) *v offset /v sqrt distanceSquared.
Proof.
  intros offset distanceSquared Hfar. unfold computeForce.
  fold offset. fold distanceSquared.
  replace (flt (fabs distanceSquared) f_1e_10) with false; [done|].
  symmetry. by apply ltb_ge.
Qed.

(** C2.  In every arithmetic: when [|distanceSquared| < 1e-10],
    [computeForce] returns the zero vector, whatever the two masses are;
    no quotient is formed. *)
Theorem computeForce_too_close {F : Type} {ops : Scalar F}
    (self : GravityPhysicsSystem.t F) (source target : SveGameObject F) :
  let offset := translation (transform2d source) -v translation (transform2d target) in
  let distanceSquared := dot offset offset in
  flt (fabs distanceSquared) f_1e_10 = true ->
  forall sourceMass targetMass : F,
    computeForce self (set_mass source sourceMass) (set_mass target targetMass)
    = Vec2 f_0 f_0.
Proof.
  intros offset distanceSquared Hnear sourceMass targetMass.
  unfold computeForce. cbn [set_mass transform2d].
  fold offset. fold distanceSquared. by rewrite Hnear.
Qed.

Lemma computeForce_too_close_witness :
  let self := Build (Binary32.dec 81 2) in
  let source := Binary32.body (Binary32.of_Z 1) (Binary32.dec 5 1) (Binary32.dec 5 1) in
  let target := Binary32.body (Binary32.of_Z 1) (Binary32.dec 5 1) (Binary32.dec 5 1) in
  flt (fabs (dot (translation (transform2d source) -v translation (transform2d target))
                 (translation (transform2d source) -v translation (transform2d target))))
      f_1e_10 = true
  /\ computeForce self (set_mass source (Binary32.of_Z 7)) (set_mass target (S754_zero false))
     = Vec2 f_0 f_0.
Proof.
  split; [vm_compute; reflexivity|].
  apply (computeForce_too_close (Build (Binary32.dec 81 2))
           (Binary32.body (Binary32.of_Z 1) (Binary32.dec 5 1) (Binary32.dec 5 1))
           (Binary32.body (Binary32.of_Z 1) (Binary32.dec 5 1) (Binary32.dec 5 1))).
  vm_compute; reflexivity.
Defined.
End ForceLaw.

(** * Integration *)

Section Integration.
Import GravityPhysicsSystem.
Local Open Scope vec_scope.

Lemma N_iter_ext {A : Type} (f h : A -> A) (n : N) (a : A) :
  (forall a', f a' = h a') -> N.iter n f a = N.iter n h a.
Proof.
  intros Hfh. induction n as [|n IH] using N.peano_ind; [done|].
  by rewrite !N.iter_succ, IH, Hfh.
Qed.

(** C3.  In every lawful arithmetic (the reals, binary32):
    [update bodies dt substeps] is [substeps] internal steps in sequence,
    each with step delta [dt / substeps].
    The loops of a step run their body once for each position pair of
    [unorderedPairs]: no pair twice, and [(i, j)] is among them exactly
    when [i < j < n], so never [(j, i)] as well and never [(i, i)].
    A step is the specification's step: for each pair,
    [A.velocity -= stepDelta * force / A.mass] and
    [B.velocity += stepDelta * force / B.mass] with [force =
    computeForce(A, B)] taken at the positions the step began with, and
    after all of them [position += stepDelta * velocity] for every body.
    The pairwise pass leaves every position as it was.
    Read off the result of a step, body by body: there are as many
    bodies as before; the velocity of the body at position [k] is its
    old velocity after the updates of all the pairs, the forces being
    those between the bodies as the step began; its position is its old
    position plus [stepDelta] times that new velocity; its mass is as it
    was. *)
Theorem update_runs_pairwise_substeps {F : Type} {ops : Scalar F} {laws : ScalarLaws F}
    (self : GravityPhysicsSystem.t F) (bodies : list (SveGameObject F))
    (dt : F) (substeps : N) :
  let stepDelta := fdiv dt (of_uint substeps) in
  update self bodies dt substeps = N.iter substeps (Spec.step self stepDelta) bodies
  /\ (forall objs,
        pairLoop self stepDelta objs
        = foldl (fun st p => applyForce self stepDelta p.1 p.2 st) objs
                (Spec.unorderedPairs (length objs)))
  /\ (forall n,
        NoDup (Spec.unorderedPairs n)
        /\ forall i j, (i, j) ∈ Spec.unorderedPairs n <-> i < j < n)
  /\ (forall objs, stepSimulation self objs stepDelta = Spec.step self stepDelta objs)
  /\ (forall objs,
        (fun obj => translation (transform2d obj)) <$> pairLoop self stepDelta objs
        = (fun obj => translation (transform2d obj)) <$> objs)
  /\ (forall objs,
        length (stepSimulation self objs stepDelta) = length objs
        /\ forall k obj, objs !! k = Some obj ->
             exists obj',
               stepSimulation self objs stepDelta !! k = Some obj'
               /\ velocity (rigidBody2d obj')
                  = Spec.velocityAfter self stepDelta objs k (velocity (rigidBody2d obj))
               /\ translation (transform2d obj')
                  = translation (transform2d obj) +v stepDelta *v velocity (rigidBody2d obj')
               /\ mass (rigidBody2d obj') = mass (rigidBody2d obj))
  /\ update self bodies dt substeps
     = N.iter substeps (fun objs => stepSimulation self objs stepDelta) bodies.
Proof.
  intros stepDelta. split_and!.
  - unfold update. apply N_iter_ext. intros objs. apply stepSimulation_refines.
  - intros objs. apply pairLoop_pairs.
  - intros n. split; [apply unorderedPairs_NoDup|]. intros i j. apply unorderedPairs_elem.
  - intros objs. apply stepSimulation_refines.
  - intros objs.
    change (fst ∘ placed <$> pairLoop self stepDelta objs = fst ∘ placed <$> objs).
    by rewrite !list_fmap_compose, pairLoop_placed.
  - intros objs. split.
    + unfold stepSimulation, moveObjects. by rewrite length_fmap, pairLoop_length.
    + intros k obj Hk. by apply stepSimulation_lookup.
  - done.
Qed.

(** The scenario of the specification in binary32: two bodies of mass 1
    at rest at [(1, 0)] and [(-1, 0)], strength 1, [dt = 1] and one
    sub-step.  The velocities become [(-0.25, 0)] and [(0.25, 0)] and
    the positions [(0.75, 0)] and [(-0.75, 0)]. *)
Lemma update_runs_pairwise_substeps_witness :
  let self := Build (Binary32.of_Z 1) in
  let A := Binary32.body (Binary32.of_Z 1) (Binary32.of_Z 1) f_0 in
  let B := Binary32.body (Binary32.of_Z 1) (Binary32.of_Z (-1)) f_0 in
  ScalarLaws spec_float
  /\ exists A' B',
       update self [A; B] (Binary32.of_Z 1) 1 !! 0 = Some A'
       /\ update self [A; B] (Binary32.of_Z 1) 1 !! 1 = Some B'
       /\ length (update self [A; B] (Binary32.of_Z 1) 1) = 2
       /\ velocity (rigidBody2d A') = Vec2 (SFopp (Binary32.dec 25 2)) (S754_zero false)
       /\ translation (transform2d A') = Vec2 (Binary32.dec 75 2) (S754_zero false)
       /\ velocity (rigidBody2d B') = Vec2 (Binary32.dec 25 2) (S754_zero false)
       /\ translation (transform2d B') = Vec2 (SFopp (Binary32.dec 75 2)) (S754_zero false).
Proof.
  intros self A B. split; [exact binary32_laws|].
  destruct (update_runs_pairwise_substeps (laws := binary32_laws) self [A; B]
              (Binary32.of_Z 1) 1) as (_ & _ & _ & _ & _ & Hstep & Hupdate).
  destruct (Hstep [A; B]) as (Hlen & Hbody).
  destruct (Hbody 0 A eq_refl) as (A' & HA' & HvA & HtA & _).
  destruct (Hbody 1 B eq_refl) as (B' & HB' & HvB & HtB & _).
  exists A', B'. rewrite Hupdate.
  change (N.iter 1 ?f ?a) with (f a).
  split_and!; [exact HA'|exact HB'|exact Hlen| | | |].
  - rewrite HvA. vm_compute. reflexivity.
  - rewrite HtA, HvA. vm_compute. reflexivity.
  - rewrite HvB. vm_compute. reflexivity.
  - rewrite HtB, HvB. vm_compute. reflexivity.
Defined.
End Integration.

(** * Momentum *)

Section Momentum.
Import GravityPhysicsSystem.
Local Open Scope R_scope.
Local Open Scope vec_scope.
Variable self : GravityPhysicsSystem.t R.

(** One internal step of two bodies, written out. *)
Lemma two_body_step (A B : SveGameObject R) (dt : R) :
  let force := computeForce self A B in
  stepSimulation self [A; B] dt
  = [Spec.advance dt
       (set_velocity A (velocity (rigidBody2d A) -v dt *v force /v mass (rigidBody2d A)));
     Spec.advance dt
       (set_velocity B (velocity (rigidBody2d B) +v dt *v force /v mass (rigidBody2d B)))].
Proof. intros force. by rewrite stepSimulation_step. Qed.

Lemma two_body_step_momentum (A B : SveGameObject R) (dt : R) :
  mass (rigidBody2d A) <> 0 -> mass (rigidBody2d B) <> 0 ->
  exists A' B',
    stepSimulation self [A; B] dt = [A'; B']
    /\ mass (rigidBody2d A') = mass (rigidBody2d A)
    /\ mass (rigidBody2d B') = mass (rigidBody2d B)
    /\ mass (rigidBody2d A) *v (velocity (rigidBody2d A') -v velocity (rigidBody2d A))
       +v mass (rigidBody2d B) *v (velocity (rigidBody2d B') -v velocity (rigidBody2d B))
       = vzero.
Proof.
  intros HA HB. eexists _, _. split; [apply two_body_step|].
  split_and!; [done|done|].
  apply vec2_eq; cbn; field; done.
Qed.

(** The two velocity changes of the step themselves. *)
Lemma two_body_step_velocities (A B : SveGameObject R) (dt : R) :
  exists A' B',
    stepSimulation self [A; B] dt = [A'; B']
    /\ velocity (rigidBody2d A')
       = velocity (rigidBody2d A) -v dt *v computeForce self A B /v mass (rigidBody2d A)
    /\ velocity (rigidBody2d B')
       = velocity (rigidBody2d B) +v dt *v computeForce self A B /v mass (rigidBody2d B).
Proof. eexists _, _. split; [apply two_body_step|]. done. Qed.

(** C5, over the reals.  For two bodies of positive mass, one internal
    step changes the velocities by [ΔvA = - dt * force / mass_A] and
    [ΔvB = dt * force / mass_B], with [force = computeForce(A, B)], so
    that [mass_A * ΔvA + mass_B * ΔvB = 0]; and in [update], for every
    [substeps], each of the sub-steps (from the state after [k] internal
    steps to the state after [k + 1], for [k < substeps]) does so too. *)
Theorem two_body_momentum_conserved (A B : SveGameObject R) (dt : R) :
  0 < mass (rigidBody2d A) -> 0 < mass (rigidBody2d B) ->
  (exists A' B',
     stepSimulation self [A; B] dt = [A'; B']
     /\ mass (rigidBody2d A) *v (velocity (rigidBody2d A') -v velocity (rigidBody2d A))
        +v mass (rigidBody2d B) *v (velocity (rigidBody2d B') -v velocity (rigidBody2d B))
        = vzero
     /\ velocity (rigidBody2d A')
        = velocity (rigidBody2d A) -v dt *v computeForce self A B /v mass (rigidBody2d A)
     /\ velocity (rigidBody2d B')
        = velocity (rigidBody2d B) +v dt *v computeForce self A B /v mass (rigidBody2d B))
  /\ forall substeps k : N, (k < substeps)%N ->
       let stepDelta := dt / IZR (Z.of_N substeps) in
       let after n := N.iter n (fun objs => stepSimulation self objs stepDelta) [A; B] in
       after substeps = update self [A; B] dt substeps
       /\ exists Ak Bk Ak' Bk',
            after k = [Ak; Bk] /\ after (N.succ k) = [Ak'; Bk']
            /\ mass (rigidBody2d Ak) = mass (rigidBody2d A)
            /\ mass (rigidBody2d Bk) = mass (rigidBody2d B)
            /\ mass (rigidBody2d A)
                 *v (velocity (rigidBody2d Ak') -v velocity (rigidBody2d Ak))
               +v mass (rigidBody2d B)
                 *v (velocity (rigidBody2d Bk') -v velocity (rigidBody2d Bk))
               = vzero.
Proof.
  intros HA HB. split.
  - destruct (two_body_step_momentum A B dt) as (A' & B' & Hstep & _ & _ & Hp); [lra|lra|].
    destruct (two_body_step_velocities A B dt) as (A1 & B1 & Hstep1 & HvA & HvB).
    rewrite Hstep in Hstep1. injection Hstep1 as <- <-.
    by exists A', B'.
  - intros substeps k _ stepDelta after. split; [done|].
    assert (Hk : exists Ak Bk, after k = [Ak; Bk]
                   /\ mass (rigidBody2d Ak) = mass (rigidBody2d A)
                   /\ mass (rigidBody2d Bk) = mass (rigidBody2d B)).
    { unfold after. induction k as [|k IH] using N.peano_ind; [by exists A, B|].
      destruct IH as (Ak & Bk & Hk & HmA & HmB).
      destruct (two_body_step_momentum Ak Bk stepDelta)
        as (Ak' & Bk' & Hstep & HmA' & HmB' & _); [lra|lra|].
      exists Ak', Bk'. rewrite N.iter_succ, Hk. split_and!; congruence. }
    destruct Hk as (Ak & Bk & Hk & HmA & HmB).
    destruct (two_body_step_momentum Ak Bk stepDelta)
      as (Ak' & Bk' & Hstep & _ & _ & Hp); [lra|lra|].
    exists Ak, Bk, Ak', Bk'. split_and!; [done| |done|done|].
    + unfold after in *. by rewrite N.iter_succ, Hk.
    + by rewrite <- HmA, <- HmB.
Qed.
End Momentum.

Lemma two_body_momentum_conserved_witness :
  (0 < 1)%R /\ (0 < 1)%R
  /\ exists A' B',
       GravityPhysicsSystem.stepSimulation (GravityPhysicsSystem.Build 1%R)
         [Real.body 1 1 0 0 0; Real.body 1 (-1) 0 0 0] 1%R = [A'; B']
       /\ vadd (vscale 1%R (vsub (velocity (rigidBody2d A')) (Vec2 0%R 0%R)))
               (vscale 1%R (vsub (velocity (rigidBody2d B')) (Vec2 0%R 0%R)))
          = vzero.
Proof.
  split; [lra|]. split; [lra|].
  destruct (two_body_momentum_conserved (GravityPhysicsSystem.Build 1%R)
              (Real.body 1 1 0 0 0) (Real.body 1 (-1) 0 0 0) 1%R)
    as [(A' & B' & Hstep & Hp & _) _]; [cbn; lra|cbn; lra|].
  by exists A', B'.
Defined.

(** * The vector field *)

Section VectorField.
Import GravityPhysicsSystem.
Local Open Scope R_scope.
Local Open Scope vec_scope.
Variable atan2 : R -> R -> R.
Variable self : GravityPhysicsSystem.t R.

Lemma clamp_unit (a : R) : 0 <= clamp a 0 1 <= 1.
Proof.
  unfold clamp, fmin, fmax. cbn. unfold Real.ltb.
  repeat destruct (Rlt_dec _ _); lra.
Qed.

Lemma clamp_zero : clamp 0 0 1 = 0.
Proof.
  unfold clamp, fmin, fmax. cbn. unfold Real.ltb.
  repeat destruct (Rlt_dec _ _); lra.
Qed.

Lemma vadd_assoc (u v w : vec2 R) : u +v (v +v w) = u +v v +v w.
Proof. apply vec2_eq; cbn; ring. Qed.

Lemma vadd_zero_r (u : vec2 R) : u +v vzero = u.
Proof. apply vec2_eq; cbn; ring. Qed.

Lemma vadd_zero_l (u : vec2 R) : vzero +v u = u.
Proof. apply vec2_eq; cbn; ring. Qed.

(** The accumulation loop computes the sum of the forces. *)
Lemma netForce_fieldAt (bodies : list (SveGameObject R)) (P : SveGameObject R) :
  Vec2FieldSystem.netForce self bodies P = Spec.fieldAt self bodies P.
Proof.
  unfold Vec2FieldSystem.netForce, Spec.fieldAt.
  rewrite <- (vadd_zero_l (foldr _ _ _)).
  assert (Hacc : forall acc,
    foldl (fun direction obj => direction +v computeForce self obj P) acc bodies
    = acc +v foldr vadd vzero ((fun B => computeForce self B P) <$> bodies)).
  { induction bodies as [|B bodies' IH]; intros acc; cbn [foldl foldr fmap list_fmap].
    - by rewrite vadd_zero_r.
    - by rewrite IH, vadd_assoc. }
  apply Hacc.
Qed.

(** Over the reals, for the sample point [P] at any position of the
    field: [update] accumulates [direction], the sum of
    [computeForce(B, P)] over the bodies [B], writes
    [scale.x = 0.005 + 0.045 * clamp(ln(|direction| + 1) / 3, 0, 1)] and
    [rotation = atan2(direction.y, direction.x)]; the written [scale.x]
    lies in [[0.005, 0.05]]. *)
Lemma field_line_real
    (bodies field : list (SveGameObject R)) (i : nat) (P : SveGameObject R) :
  field !! i = Some P ->
  let direction := Spec.fieldAt self bodies P in
  exists P',
    (Vec2FieldSystem.update (lib := Real.libm atan2) self bodies field).2 !! i = Some P'
    /\ x (scale (transform2d P'))
       = 0.005 + 0.045 * clamp (ln (length2 direction + 1) / 3) 0 1
    /\ rotation (transform2d P') = atan2 (y direction) (x direction)
    /\ 0.005 <= x (scale (transform2d P')) <= 0.05.
Proof.
  intros HP direction.
  exists (Vec2FieldSystem.orient (lib := Real.libm atan2)
            (Vec2FieldSystem.netForce self bodies P) P).
  split; [|split; [|split]].
  - unfold Vec2FieldSystem.update. cbn [snd]. by rewrite list_lookup_fmap, HP.
  - cbn. by rewrite netForce_fieldAt.
  - cbn. by rewrite netForce_fieldAt.
  - pose proof (clamp_unit (ln (length2 (Vec2FieldSystem.netForce self bodies P) + 1) / 3)).
    cbn in *. lra.
Qed.

(** C7 (over the reals).  [computeForce(B, P)] is homogeneous in the
    mass of its target: with [P.mass] multiplied by [k], the force is
    multiplied by [k], in the branch that returns zero and in the other;
    and so is the direction that [update] accumulates for [P]. *)
Theorem computeForce_homogeneous_in_target_mass
    (bodies : list (SveGameObject R)) (B P : SveGameObject R) (k : R) :
  computeForce self B (set_mass P (k * mass (rigidBody2d P)))
  = k *v computeForce self B P
  /\ Vec2FieldSystem.netForce self bodies (set_mass P (k * mass (rigidBody2d P)))
     = k *v Vec2FieldSystem.netForce self bodies P.
Proof.
  assert (Hone : forall B', computeForce self B' (set_mass P (k * mass (rigidBody2d P)))
                            = k *v computeForce self B' P).
  { intros B'. unfold computeForce. cbn [set_mass transform2d rigidBody2d mass].
    destruct (flt _ _); apply vec2_eq; cbn; unfold Rdiv; ring. }
  split; [apply Hone|].
  unfold Vec2FieldSystem.netForce.
  assert (Hacc : forall acc,
    foldl (fun direction obj =>
             direction +v computeForce self obj (set_mass P (k * mass (rigidBody2d P))))
          (k *v acc) bodies
    = k *v foldl (fun direction obj => direction +v computeForce self obj P) acc bodies).
  { induction bodies as [|B' bodies' IH]; intros acc; [done|].
    cbn [foldl]. rewrite <- IH. f_equal. rewrite Hone.
    apply vec2_eq; cbn; ring. }
  rewrite <- Hacc. f_equal. apply vec2_eq; cbn; ring.
Qed.

(** With no bodies the field update computes, over the reals, the
    scale [0.005] and the rotation [atan2(0, 0)] for every sample point. *)
Lemma orient_no_bodies_real (P : SveGameObject R) :
  Vec2FieldSystem.orient (lib := Real.libm atan2) (Vec2FieldSystem.netForce self [] P) P
  = set_rotation (set_scale_x P 0.005) (atan2 0 0).
Proof.
  unfold Vec2FieldSystem.orient, Vec2FieldSystem.netForce. cbn [foldl].
  f_equal. f_equal. cbn.
  replace (0 * 0 + 0 * 0) with 0 by ring.
  rewrite sqrt_0. replace (0 + 1) with 1 by ring. rewrite ln_1.
  replace (0 / 3) with 0 by (unfold Rdiv; ring).
  pose proof clamp_zero as Hc. cbn in Hc. rewrite Hc. lra.
Qed.
End VectorField.

(** * Symmetry of the force *)

Section Symmetry.
Import GravityPhysicsSystem.
Local Open Scope R_scope.
Local Open Scope vec_scope.

(** C4, over the reals.  For bodies [A] and [B] with
    [distanceSquared >= 1e-10], [computeForce(A, B) = -computeForce(B, A)],
    and the two forces have the same length. *)
Theorem computeForce_antisymmetric_over_reals
    (self : GravityPhysicsSystem.t R) (A B : SveGameObject R) :
  let offset := translation (transform2d A) -v translation (transform2d B) in
  let distanceSquared := dot offset offset in
  distanceSquared >= 1e-10 ->
  computeForce self A B = -v computeForce self B A
  /\ length2 (computeForce self A B) = length2 (computeForce self B A).
Proof.
  intros offset distanceSquared _.
  assert (Hopp : computeForce self A B = -v computeForce self B A).
  { unfold computeForce.
    replace (dot (translation (transform2d B) -v translation (transform2d A))
                 (translation (transform2d B) -v translation (transform2d A)))
      with (dot (translation (transform2d A) -v translation (transform2d B))
                (translation (transform2d A) -v translation (transform2d B)))
      by (cbn; ring).
    destruct (flt _ _); apply vec2_eq; cbn; unfold Rdiv; ring. }
  split; [exact Hopp|].
  rewrite Hopp. unfold length2. f_equal. cbn. ring.
Qed.

Lemma computeForce_antisymmetric_over_reals_witness :
  dot (Vec2 1 0 -v Vec2 0 0) (Vec2 1 0 -v Vec2 0 0) >= 1e-10
  /\ computeForce (Build 0.81) (Real.body 5 1 0 0 0) (Real.body 7 0 0 0 0)
     = -v computeForce (Build 0.81) (Real.body 7 0 0 0 0) (Real.body 5 1 0 0 0).
Proof.
  assert (Hfar : dot (Vec2 1 0 -v Vec2 0 0) (Vec2 1 0 -v Vec2 0 0) >= 1e-10).
  { change ((1 - 0) * (1 - 0) + (0 - 0) * (0 - 0) >= 1e-10). lra. }
  split; [exact Hfar|].
  exact (proj1 (computeForce_antisymmetric_over_reals (Build 0.81)
                  (Real.body 5 1 0 0 0) (Real.body 7 0 0 0 0) Hfar)).
Defined.
End Symmetry.

(** * Binary32: what rounding does to the algebraic laws *)

Section Rounding.
Import GravityPhysicsSystem Binary32.
Local Open Scope Z_scope.
Local Open Scope vec_scope.

(** The scenario of the specification runs exactly in binary32: two
    bodies of mass 1 at rest at [(1, 0)] and [(-1, 0)], strength 1, one
    step with [dt = 1]: the force has magnitude 0.25; the velocities
    become [(-0.25, 0)] and [(0.25, 0)], and the bodies move to
    [(0.75, 0)] and [(-0.75, 0)]. *)
Example two_unit_bodies_binary32 :
  let A := body (of_Z 1) (of_Z 1) f_0 in
  let B := body (of_Z 1) (of_Z (-1)) f_0 in
  computeForce (Build (of_Z 1)) A B = Vec2 (dec 25 2) f_0
  /\ update (Build (of_Z 1)) [A; B] (of_Z 1) 1
     = [set_translation (set_velocity A (Vec2 (SFopp (dec 25 2)) f_0))
          (Vec2 (dec 75 2) f_0);
        set_translation (set_velocity B (Vec2 (dec 25 2) f_0))
          (Vec2 (SFopp (dec 75 2)) f_0)].
Proof. vm_compute. done. Qed.

(** Counterexample to C4 as it is stated, in binary32.  With the strength [0.81f] of
    [FirstApp::run], [A] of mass 5 at [(1, 0)] and [B] of mass 7 at
    [(0, 0)] are at distance 1, and

    - [computeForce(A, B)] rounds [0.81f * 7] and then the product by 5:
      [0.81f = 13589545 * 2^-24]; [13589545 * 7 = 95126815] rounds to
      [11890852 * 2^-21]; [11890852 * 5 = 59454260 = 4 * 14863565], so
      the x component is [14863565 * 2^-19];
    - [computeForce(B, A)] rounds [0.81f * 5] and then the product by 7:
      [13589545 * 5 = 67947725] rounds to [8493466 * 2^-21];
      [8493466 * 7 = 59454262 = 4 * 14863565 + 2], a tie that rounds to
      the even [14863566], so the x component is [-14863566 * 2^-19].

    The two forces differ in length by one unit in the last place. *)
Lemma computeForce_antisymmetry_fails_in_binary32 :
  let self := Build (dec 81 2) in
  let A := body (of_Z 5) (of_Z 1) f_0 in
  let B := body (of_Z 7) f_0 f_0 in
  let offset := translation (transform2d A) -v translation (transform2d B) in
  SFleb f_1e_10 (dot offset offset) = true
  /\ computeForce self A B = Vec2 (S754_finite false 14863565 (-19)) (S754_zero false)
  /\ -v computeForce self B A = Vec2 (S754_finite false 14863566 (-19)) (S754_zero true)
  /\ veqb (computeForce self A B) (-v computeForce self B A) = false
  /\ SFeqb (length2 (computeForce self A B)) (length2 (computeForce self B A)) = false.
Proof. vm_compute. done. Qed.

(** Counterexample to C7 as it is stated, in binary32.  With strength [0.81f], a body [B]
    of mass 1 at [(1, 0)] and a sample point [P] of mass 5 at [(0, 0)]:
    multiplying [P.mass] by [k = 7] gives mass 35 and the force
    [fl(0.81f * 35) = 14863565 * 2^-19], while [7 * computeForce(B, P)]
    is [fl(7 * fl(0.81f * 5)) = 14863566 * 2^-19]. *)
Lemma computeForce_homogeneity_fails_in_binary32 :
  let self := Build (dec 81 2) in
  let B := body (of_Z 1) (of_Z 1) f_0 in
  let P := body (of_Z 5) f_0 f_0 in
  let k := of_Z 7 in
  let P' := set_mass P (fmul k (mass (rigidBody2d P))) in
  mass (rigidBody2d P') = of_Z 35
  /\ computeForce self B P' = Vec2 (S754_finite false 14863565 (-19)) (S754_zero false)
  /\ k *v computeForce self B P = Vec2 (S754_finite false 14863566 (-19)) (S754_zero false)
  /\ veqb (computeForce self B P') (k *v computeForce self B P) = false
  /\ veqb (Vec2FieldSystem.netForce self [B] P')
          (k *v Vec2FieldSystem.netForce self [B] P) = false.
Proof. vm_compute. done. Qed.

(** Counterexample to C5 as it is stated, in binary32: no tolerance
    bounds [mass_A * ΔvA + mass_B * ΔvB] for all pairs of positive
    masses.  With the strength [0.81f] of [FirstApp::run], two bodies of
    mass [1e20f] (positive and finite) at rest at [(1, 0)] and [(-1, 0)]
    and [dt = 1/60]: the product of the two masses, about [1e40],
    exceeds the largest binary32 number and is [+inf]; so the force is
    [(+inf, inf * 0) = (+inf, NaN)], the two changes of velocity are
    [(-inf, NaN)] and [(+inf, NaN)], and [mass_A * ΔvA + mass_B * ΔvB]
    is [(NaN, NaN)]: neither zero nor below any tolerance. *)
Lemma two_body_momentum_fails_in_binary32 :
  let self := Build (dec 81 2) in
  let m := of_Z (10 ^ 20) in
  let A := body m (of_Z 1) f_0 in
  let B := body m (of_Z (-1)) f_0 in
  let dt := fdiv (of_Z 1) (of_Z 60) in
  let dvA := Vec2 (S754_infinity true) S754_nan in
  let dvB := Vec2 (S754_infinity false) S754_nan in
  let residual := m *v dvA +v m *v dvB in
  m = S754_finite false 11368684 43
  /\ SFltb f_0 m = true
  /\ computeForce self A B = Vec2 (S754_infinity false) S754_nan
  /\ (fun obj => velocity (rigidBody2d obj)) <$> [A; B] = [vzero; vzero]
  /\ (fun obj => velocity (rigidBody2d obj) -v vzero) <$> stepSimulation self [A; B] dt
     = [dvA; dvB]
  /\ residual = Vec2 S754_nan S754_nan
  /\ veqb residual vzero = false
  /\ (forall tolerance : spec_float,
        SFleb (fabs (x residual)) tolerance = false
        /\ SFleb (fabs (y residual)) tolerance = false).
Proof.
  split_and!; try (vm_compute; reflexivity).
  intros [| | |]; split; reflexivity.
Qed.

(** The two ends of the scale in binary32: [0.005f + 0.045f * 0] is
    [0.005f] and [0.005f + 0.045f * 1] is [0.05f]. *)
Example scale_ends_binary32 :
  fadd f_0_005 (fmul f_0_045 (clamp (S754_zero false) f_0 f_1)) = f_0_005
  /\ fadd f_0_005 (fmul f_0_045 (clamp (S754_infinity false) f_0 f_1)) = dec 5 2.
Proof. vm_compute. done. Qed.

(** With [substeps = 0] the step delta [dt / substeps] of [dt = 1/60] is
    the binary32 infinity, and [update] does not use it. *)
Example zero_substeps_binary32 :
  let A := body (of_Z 1) (of_Z 1) f_0 in
  let dt := fdiv (of_Z 1) (of_Z 60) in
  fdiv dt (of_uint 0) = S754_infinity false
  /\ update (Build (dec 81 2)) [A] dt 0 = [A].
Proof. vm_compute. done. Qed.

(** With no bodies, in binary32 too every sample point gets
    [scale.x = 0.005f] and [rotation = atan2(0, 0)], for a [log] that
    returns [0] at [1]. *)
Lemma empty_body_sequence_binary32 (lib : Libm spec_float)
    (self : GravityPhysicsSystem.t spec_float) (field : list (SveGameObject spec_float)) :
  flog f_1 = f_0 ->
  Vec2FieldSystem.update self [] field
  = ([], (fun P => set_rotation (set_scale_x P f_0_005) (fatan2 f_0 f_0)) <$> field).
Proof.
  intros Hlog. unfold Vec2FieldSystem.update. f_equal. apply list_fmap_ext. intros _ P _.
  unfold Vec2FieldSystem.orient, Vec2FieldSystem.netForce. cbn [foldl].
  change (length2 vzero + f_1)%fp with (f_1 : spec_float).
  rewrite Hlog. reflexivity.
Qed.
End Rounding.

(** * No bodies *)

Section NoBodies.
Import GravityPhysicsSystem.
Local Open Scope vec_scope.

(** C8.  With no bodies:
    - in every arithmetic, [GravityPhysicsSystem::update] returns the
      empty sequence for every [dt] and [substeps], and the call in
      [run] leaves both collections as they are;
    - [Vec2FieldSystem::update] returns no bodies and, read off every
      sample point [P'] it returns, [scale.x] is [0.005] and the
      rotation is [atan2(0, 0)], while [scale.y] is as it was: over the
      reals, and in binary32 for every C library with [log(1) = 0],
      where the [0.005] written is the program's literal [0.005f],
      the binary32 number [10737418 * 2^-31]. *)
Theorem empty_body_sequence :
  (forall (F : Type) (ops : Scalar F) (self : GravityPhysicsSystem.t F)
          (dt : F) (substeps : N) (field : list (SveGameObject F)),
     update self [] dt substeps = []
     /\ FirstApp.updateGravity self dt substeps
          {| FirstApp.physicsObjects := []; FirstApp.vectorField := field |}
        = {| FirstApp.physicsObjects := []; FirstApp.vectorField := field |})
  /\ (forall (atan2 : R -> R -> R) (self : GravityPhysicsSystem.t R)
             (field : list (SveGameObject R)),
        let updated := Vec2FieldSystem.update (lib := Real.libm atan2) self [] field in
        updated.1 = []
        /\ Forall2 (fun P P' =>
                      x (scale (transform2d P')) = 0.005%R
                      /\ rotation (transform2d P') = atan2 0%R 0%R
                      /\ y (scale (transform2d P')) = y (scale (transform2d P)))
                   field updated.2)
  /\ (forall (lib : Libm spec_float) (self : GravityPhysicsSystem.t spec_float)
             (field : list (SveGameObject spec_float)),
        flog f_1 = f_0 ->
        let updated := Vec2FieldSystem.update self [] field in
        updated.1 = []
        /\ Forall2 (fun P P' =>
                      x (scale (transform2d P')) = S754_finite false 10737418 (-31)
                      /\ x (scale (transform2d P')) = f_0_005
                      /\ rotation (transform2d P') = fatan2 (S754_zero false) (S754_zero false)
                      /\ y (scale (transform2d P')) = y (scale (transform2d P)))
                   field updated.2).
Proof.
  split_and!.
  - intros F ops self dt substeps field.
    assert (Hnone : update self [] dt substeps = []) by apply update_nil.
    split; [done|]. unfold FirstApp.updateGravity.
    cbn [FirstApp.physicsObjects FirstApp.vectorField]. by rewrite Hnone.
  - intros atan2 self field updated. split; [done|].
    unfold updated, Vec2FieldSystem.update. cbn [snd].
    induction field as [|P field IH]; [constructor|].
    cbn [fmap list_fmap]. constructor; [|exact IH].
    by rewrite orient_no_bodies_real.
  - intros lib self field Hlog updated. split; [done|].
    unfold updated. rewrite (empty_body_sequence_binary32 lib self field Hlog). cbn [snd].
    induction field as [|P field IH]; [constructor|].
    cbn [fmap list_fmap]. by constructor.
Qed.

(** In binary32, with a C library that has [log(1) = +0] and
    [atan2(+0, +0) = +0]: a sample point with scale [(1, 1)] and
    rotation [0.5] comes back with scale [(0.005f, 1)] and rotation
    [+0]. *)
Lemma empty_body_sequence_witness :
  let P := set_rotation (Binary32.body f_1 (Binary32.dec 5 1) (Binary32.dec 5 1))
             (Binary32.dec 5 1) in
  flog (Libm := Binary32.special_values) f_1 = f_0
  /\ exists P',
       (Vec2FieldSystem.update (lib := Binary32.special_values)
          (Build (Binary32.dec 81 2)) [] [P]).2 = [P']
       /\ scale (transform2d P') = Vec2 (S754_finite false 10737418 (-31)) f_1
       /\ rotation (transform2d P') = S754_zero false.
Proof.
  intros P. split; [reflexivity|].
  destruct empty_body_sequence as (_ & _ & Hfield).
  destruct (Hfield Binary32.special_values (Build (Binary32.dec 81 2)) [P] eq_refl)
    as (_ & Hpoints).
  apply Forall2_cons_inv_l in Hpoints as (P' & rest & (Hx & _ & Hrot & Hy) & Hrest & Hupdated).
  apply Forall2_nil_inv_l in Hrest as ->.
  exists P'. split; [exact Hupdated|]. split.
  - destruct (scale (transform2d P')) as [sx sy]. cbn in Hx, Hy. by rewrite Hx, Hy.
  - by rewrite Hrot.
Defined.
End NoBodies.

(** * Rounding to binary32

    [SpecFloat] computes; it states no theorem.  What the length of a
    field line needs is proved here from its definitions: a product or a
    sum of two positive binary32 numbers is rounded to zero, to a
    canonical number or to an infinity, and the rounding never crosses a
    binary32 number: every binary32 number that is at most (at least)
    the exact value is at most (at least) the rounded one. *)

Section RoundingTheory.
Import Binary32.
Local Open Scope Z_scope.

Lemma fexp_binary32 (e : Z) : fexp prec emax e = Z.max (e - 24) (-149).
Proof. reflexivity. Qed.

Lemma digits2_pos_bounds (p : positive) :
  2 ^ (Z.pos (digits2_pos p) - 1) <= Z.pos p < 2 ^ Z.pos (digits2_pos p).
Proof.
  induction p as [p IH|p IH|]; cbn [digits2_pos].
  - rewrite Pos2Z.inj_succ, Z.pow_succ_r by lia.
    replace (Z.succ (Z.pos (digits2_pos p)) - 1) with (Z.succ (Z.pos (digits2_pos p) - 1)) by lia.
    rewrite Z.pow_succ_r by lia. lia.
  - rewrite Pos2Z.inj_succ, Z.pow_succ_r by lia.
    replace (Z.succ (Z.pos (digits2_pos p)) - 1) with (Z.succ (Z.pos (digits2_pos p) - 1)) by lia.
    rewrite Z.pow_succ_r by lia. lia.
  - cbn. lia.
Qed.

Lemma shr_1_shifted (mrs : shr_record) :
  0 <= shr_m mrs -> shifted 1 mrs (shr_1 mrs).
Proof.
  destruct mrs as [m r s]. cbn [shr_m]. intros Hm.
  unfold shifted, inexact. change (2 ^ 1) with 2.
  destruct m as [|[p|p|]|p]; cbn [shr_1 shr_m shr_r shr_s]; try lia.
  - split; [reflexivity|]. cbn. destruct r, s; cbn; intuition congruence.
  - split; [Z.to_euclidean_division_equations; lia|].
    split; [discriminate|]. intros [_ H]. Z.to_euclidean_division_equations; lia.
  - split; [Z.to_euclidean_division_equations; lia|].
    replace (Z.pos p~0 mod 2) with 0 by (Z.to_euclidean_division_equations; lia).
    destruct r, s; cbn; intuition congruence.
  - split; [reflexivity|]. split; [discriminate|]. intros [_ H]. vm_compute in H. discriminate H.
Qed.

Lemma shifted_nonneg (k : Z) (mrs mrs' : shr_record) :
  0 <= k -> shifted k mrs mrs' -> 0 <= shr_m mrs -> 0 <= shr_m mrs'.
Proof.
  intros Hk [Hm _] H0. rewrite Hm. apply Z.div_pos; [done|]. apply Z.pow_pos_nonneg; lia.
Qed.

Lemma shifted_compose (k1 k2 : Z) (a b c : shr_record) :
  0 <= k1 -> 0 <= k2 -> 0 <= shr_m a ->
  shifted k1 a b -> shifted k2 b c -> shifted (k1 + k2) a c.
Proof.
  intros H1 H2 Ha [Hb Hbi] [Hc Hci].
  assert (P1 : 0 < 2 ^ k1) by (apply Z.pow_pos_nonneg; lia).
  assert (P2 : 0 < 2 ^ k2) by (apply Z.pow_pos_nonneg; lia).
  split.
  - rewrite Hc, Hb, Z.pow_add_r, Z.div_div by lia. reflexivity.
  - rewrite Hci, Hbi, Hb, Z.pow_add_r, Z.rem_mul_r by lia.
    pose proof (Z.mod_pos_bound (shr_m a) (2 ^ k1) P1).
    pose proof (Z.mod_pos_bound (shr_m a / 2 ^ k1) (2 ^ k2) P2).
    split.
    + intros [[Hi Hm1] Hm2]. split; [done|]. rewrite Hm1, Hm2. lia.
    + intros [Hi Hs]. split; [split; [done|]|]; nia.
Qed.

Lemma iter_pos_shifted (p : positive) (mrs : shr_record) :
  0 <= shr_m mrs -> shifted (Z.pos p) mrs (SpecFloat.iter_pos shr_1 p mrs).
Proof.
  revert mrs. induction p as [p IH|p IH|]; intros mrs Hm; cbn [SpecFloat.iter_pos].
  - pose proof (shr_1_shifted mrs Hm) as S1.
    pose proof (shifted_nonneg 1 _ _ ltac:(lia) S1 Hm) as N1.
    pose proof (IH _ N1) as S2.
    pose proof (shifted_nonneg (Z.pos p) _ _ ltac:(lia) S2 N1) as N2.
    pose proof (IH _ N2) as S3.
    replace (Z.pos p~1) with (1 + Z.pos p + Z.pos p) by (rewrite (Pos2Z.inj_xI p); lia).
    eapply shifted_compose; [lia|lia|done| |exact S3].
    eapply shifted_compose; [lia|lia|done|exact S1|exact S2].
  - pose proof (IH _ Hm) as S2.
    pose proof (shifted_nonneg (Z.pos p) _ _ ltac:(lia) S2 Hm) as N2.
    pose proof (IH _ N2) as S3.
    replace (Z.pos p~0) with (Z.pos p + Z.pos p) by (rewrite (Pos2Z.inj_xO p); lia).
    eapply shifted_compose; [lia|lia|done|exact S2|exact S3].
  - by apply shr_1_shifted.
Qed.


Lemma shr_shifted (mrs : shr_record) (e n : Z) :
  0 <= shr_m mrs -> 0 <= n ->
  exists mrs', shr mrs e n = (mrs', e + n) /\ shifted n mrs mrs'.
Proof.
  intros Hm Hn. destruct n as [|p|p]; [| |lia].
  - exists mrs. split; [cbn; f_equal; lia|].
    split; [cbn; by rewrite Z.div_1_r|].
    cbn. rewrite Z.mod_1_r. intuition.
  - exists (SpecFloat.iter_pos shr_1 p mrs). split; [done|]. by apply iter_pos_shifted.
Qed.

Lemma round_nearest_even_bounds (mrs : shr_record) :
  shr_m mrs <= round_nearest_even (shr_m mrs) (loc_of_shr_record mrs)
  <= shr_m mrs + (if inexact mrs then 1 else 0).
Proof.
  destruct mrs as [m [] []]; cbn; try destruct (Z.even m); lia.
Qed.

Lemma canonical_pos (M : positive) (E : Z) :
  canonical (Z.pos M) E ->
  -149 <= E /\ Z.pos M < 2 ^ 24 /\ (E = -149 \/ 2 ^ 23 <= Z.pos M).
Proof.
  unfold canonical. rewrite fexp_binary32. cbn [Zdigits2]. intros Hc.
  pose proof (digits2_pos_bounds M) as [Hlo Hhi].
  split; [lia|]. split.
  - eapply Z.lt_le_trans; [exact Hhi|]. apply Z.pow_le_mono_r; lia.
  - destruct (decide (E = -149)) as [|Hne]; [by left|right].
    replace (Z.pos (digits2_pos M)) with 24 in Hlo by lia. exact Hlo.
Qed.

Lemma sc_pow (m e k : Z) : 0 <= k -> -400 <= e -> sc m (e + k) = m * 2 ^ k * 2 ^ (e + 400).
Proof.
  intros Hk He. unfold sc. replace (e + k + 400) with (k + (e + 400)) by lia.
  rewrite Z.pow_add_r by lia. ring.
Qed.

Lemma sc_le (m m' e : Z) : -400 <= e -> m <= m' -> sc m e <= sc m' e.
Proof.
  intros He Hm. unfold sc. apply Z.mul_le_mono_nonneg_r; [|done].
  apply Z.pow_nonneg. lia.
Qed.

(** two canonical numbers are ordered as their (exponent, mantissa) pairs *)
Lemma canonical_order (M m : positive) (E e : Z) :
  canonical (Z.pos M) E -> canonical (Z.pos m) e ->
  sc (Z.pos M) E <= sc (Z.pos m) e -> E < e \/ (E = e /\ Z.pos M <= Z.pos m).
Proof.
  intros HM Hm Hle.
  destruct (canonical_pos _ _ HM) as (HE & HM24 & HM23).
  destruct (canonical_pos _ _ Hm) as (He & Hm24 & Hm23).
  destruct (Z.lt_trichotomy E e) as [Hlt|[Heq|Hgt]]; [by left| |].
  - right. split; [done|]. subst E. unfold sc in Hle.
    assert (0 < 2 ^ (e + 400)) by (apply Z.pow_pos_nonneg; lia). nia.
  - exfalso. destruct HM23 as [->|HM23]; [lia|].
    replace E with (e + (E - e)) in Hle by lia.
    rewrite sc_pow in Hle by lia. unfold sc in Hle.
    assert (HA : 0 < 2 ^ (e + 400)) by (apply Z.pow_pos_nonneg; lia).
    assert (Hk : 2 ^ 1 <= 2 ^ (E - e)) by (apply Z.pow_le_mono_r; lia).
    change (2 ^ 1) with 2 in Hk. change (2 ^ 23) with 8388608 in HM23.
    change (2 ^ 24) with 16777216 in Hm24.
    assert (Z.pos m < Z.pos M * 2 ^ (E - e)) by nia. nia.
Qed.

Lemma floor_bound (a N X : Z) : 0 < N -> X * N <= a -> X <= a / N.
Proof. intros HN H. apply Z.div_le_lower_bound; lia. Qed.

Lemma ceil_bound (a N X : Z) :
  0 < N -> a <= X * N -> a / N + (if decide (a mod N = 0) then 0 else 1) <= X.
Proof.
  intros HN H.
  pose proof (Z.div_mod a N ltac:(lia)) as Hdm.
  pose proof (Z.mod_pos_bound a N HN) as Hrem.
  destruct (decide (a mod N = 0)) as [H0|H0].
  - rewrite H0 in Hdm. assert (N * (a / N) <= N * X) by lia.
    apply Z.mul_le_mono_pos_l in H1; lia.
  - assert (N * (a / N) < N * X) by lia.
    apply Z.mul_lt_mono_pos_l in H1; lia.
Qed.

Lemma floor_le (a N : Z) : 0 < N -> 0 <= a -> a / N * N <= a.
Proof. intros HN Ha. pose proof (Z.mul_div_le a N HN). lia. Qed.

(** no canonical number lies strictly between the value [pm * 2^e] and
    its two neighbours at the exponent of the format *)
Lemma canonical_between (pm M : positive) (e E : Z) :
  let e1 := fexp prec emax (Zdigits2 (Z.pos pm) + e) in
  let n := e1 - e in
  let m' := Z.pos pm / 2 ^ n in
  -400 <= e -> 0 <= n -> canonical (Z.pos M) E ->
  (sc (Z.pos M) E <= sc (Z.pos pm) e -> sc (Z.pos M) E <= sc m' e1)
  /\ (sc (Z.pos pm) e <= sc (Z.pos M) E ->
      sc (m' + (if decide (Z.pos pm mod 2 ^ n = 0) then 0 else 1)) e1 <= sc (Z.pos M) E).
Proof.
  intros e1 n m' He Hn HM.
  destruct (canonical_pos _ _ HM) as (HE & HM24 & HM23).
  assert (He1 : e1 = e + n) by (unfold n; lia).
  assert (HA : 0 < 2 ^ (e + 400)) by (apply Z.pow_pos_nonneg; lia).
  assert (HN : 0 < 2 ^ n) by (apply Z.pow_pos_nonneg; lia).
  destruct (decide (e1 <= E)) as [Hge|Hlt].
  - assert (HX : 0 < 2 ^ (E - e1)) by (apply Z.pow_pos_nonneg; lia).
    assert (HsM : sc (Z.pos M) E = Z.pos M * 2 ^ (E - e1) * 2 ^ n * 2 ^ (e + 400)).
    { replace E with (e + (n + (E - e1))) at 1 by lia. rewrite sc_pow by lia.
      rewrite (Z.pow_add_r 2 n) by lia. ring. }
    rewrite HsM, He1, !sc_pow by lia. unfold sc.
    set (X := Z.pos M * 2 ^ (E - e1)).
    split; intros Hle.
    + apply Z.mul_le_mono_pos_r in Hle; [|done].
      apply Z.mul_le_mono_nonneg_r; [lia|]. apply Z.mul_le_mono_nonneg_r; [lia|].
      by apply floor_bound.
    + apply Z.mul_le_mono_pos_r in Hle; [|done].
      apply Z.mul_le_mono_nonneg_r; [lia|]. apply Z.mul_le_mono_nonneg_r; [lia|].
      by apply ceil_bound.
  - assert (Hd : n = Z.pos (digits2_pos pm) - 24).
    { unfold n, e1 in *. rewrite fexp_binary32 in *. cbn [Zdigits2] in *. lia. }
    pose proof (digits2_pos_bounds pm) as [Hlo _].
    replace (Z.pos (digits2_pos pm) - 1) with (23 + n) in Hlo by lia.
    rewrite Z.pow_add_r in Hlo by lia.
    assert (Hm' : 2 ^ 23 <= m') by (by apply floor_bound).
    assert (Hfloor : sc m' e1 <= sc (Z.pos pm) e).
    { rewrite He1, sc_pow by lia. unfold sc.
      apply Z.mul_le_mono_nonneg_r; [lia|]. by apply floor_le. }
    assert (Hsmall : sc (Z.pos M) E < sc m' e1).
    { apply Z.lt_le_trans with (sc (2 ^ 23) e1); [|apply sc_le; lia].
      replace e1 with (E + (e1 - E)) by lia. rewrite sc_pow by lia. unfold sc.
      apply Z.mul_lt_mono_pos_r; [apply Z.pow_pos_nonneg; lia|].
      assert (Hk : 2 ^ 1 <= 2 ^ (e1 - E)) by (apply Z.pow_le_mono_r; lia).
      change (2 ^ 1) with 2 in Hk. change (2 ^ 23) with 8388608.
      change (2 ^ 24) with 16777216 in HM24. lia. }
    split; intros Hle; [lia|lia].
Qed.

Lemma shr_nonpos (mrs : shr_record) (e n : Z) : n <= 0 -> shr mrs e n = (mrs, e).
Proof. destruct n; [done|lia|done]. Qed.

Lemma digits2_pos_le (p : positive) (k : Z) :
  0 <= k -> Z.pos p < 2 ^ k -> Z.pos (digits2_pos p) <= k.
Proof.
  intros Hk Hp. pose proof (digits2_pos_bounds p) as [Hlo _].
  assert (H : 2 ^ (Z.pos (digits2_pos p) - 1) < 2 ^ k) by lia.
  apply Z.pow_lt_mono_r_iff in H; lia.
Qed.

Lemma digits2_pos_ge (p : positive) (k : Z) :
  0 <= k -> 2 ^ k <= Z.pos p -> k < Z.pos (digits2_pos p).
Proof.
  intros Hk Hp. pose proof (digits2_pos_bounds p) as [_ Hhi].
  assert (H : 2 ^ k < 2 ^ Z.pos (digits2_pos p)) by lia.
  apply Z.pow_lt_mono_r_iff in H; lia.
Qed.

Lemma shr_record_of_loc_m (m : Z) (l : location) : shr_m (shr_record_of_loc m l) = m.
Proof. by destruct l as [|[]]. Qed.

(** What rounding does to a positive value [pm * 2^e] that has enough
    digits, whatever lies beyond its last digit ([l]): the result is
    zero, a canonical number or an infinity; and when nothing lies
    beyond, every canonical number on one side of the value is on the
    same side of the result. *)
Lemma binary_round_aux_shape (sx : bool) (pm : positive) (e : Z) (l : location) :
  -400 <= e -> e <= fexp prec emax (Zdigits2 (Z.pos pm) + e) ->
  exists mr er,
    binary_round_aux prec emax sx (Z.pos pm) e l
      = match mr with
        | 0 => S754_zero sx
        | Z.pos p =>
            if er <=? emax - prec then S754_finite sx p er else S754_infinity sx
        | Z.neg _ => S754_nan
        end
    /\ 0 <= mr /\ -149 <= er
    /\ (0 < mr -> canonical mr er)
    /\ (l = loc_Exact ->
        forall M E, canonical (Z.pos M) E ->
          (sc (Z.pos M) E <= sc (Z.pos pm) e -> sc (Z.pos M) E <= sc mr er)
          /\ (sc (Z.pos pm) e <= sc (Z.pos M) E -> sc mr er <= sc (Z.pos M) E)).
Proof.
  intros He Hn.
  unfold binary_round_aux, shr_fexp.
  set (e1 := fexp prec emax (Zdigits2 (Z.pos pm) + e)) in *.
  assert (He1 : -149 <= e1 /\ Z.pos (digits2_pos pm) + e - 24 <= e1
                /\ (e1 = -149 \/ e1 = Z.pos (digits2_pos pm) + e - 24)).
  { unfold e1. rewrite fexp_binary32. cbn [Zdigits2]. lia. }
  destruct He1 as (He1 & Hd1 & He1').
  destruct (shr_shifted (shr_record_of_loc (Z.pos pm) l) e (e1 - e))
    as (mrs' & Hshr & Hm' & Hinex); [rewrite shr_record_of_loc_m; lia|lia|].
  rewrite Hshr. replace (e + (e1 - e)) with e1 by lia.
  rewrite shr_record_of_loc_m in Hm', Hinex.
  set (n := e1 - e) in *.
  assert (HN : 0 < 2 ^ n) by (apply Z.pow_pos_nonneg; lia).
  pose proof (digits2_pos_bounds pm) as [Hlo Hhi].
  assert (Hm'0 : 0 <= shr_m mrs') by (rewrite Hm'; apply Z.div_pos; lia).
  assert (Hm'24 : shr_m mrs' < 2 ^ 24).
  { rewrite Hm'. apply Z.div_lt_upper_bound; [done|].
    rewrite <- Z.pow_add_r by lia.
    eapply Z.lt_le_trans; [exact Hhi|]. apply Z.pow_le_mono_r; lia. }
  assert (Hm'23 : e1 <> -149 -> 2 ^ 23 <= shr_m mrs').
  { intros Hne. rewrite Hm'. apply floor_bound; [done|].
    rewrite <- Z.pow_add_r by lia.
    replace (23 + n) with (Z.pos (digits2_pos pm) - 1) by lia. exact Hlo. }
  pose proof (round_nearest_even_bounds mrs') as Hround.
  set (m1 := round_nearest_even (shr_m mrs') (loc_of_shr_record mrs')) in *.
  assert (Hm1 : 0 <= m1 <= 2 ^ 24) by (destruct (inexact mrs'); lia).
  assert (Hbounds : forall mr er, sc mr er = sc m1 e1 -> l = loc_Exact ->
     forall M E, canonical (Z.pos M) E ->
       (sc (Z.pos M) E <= sc (Z.pos pm) e -> sc (Z.pos M) E <= sc mr er)
       /\ (sc (Z.pos pm) e <= sc (Z.pos M) E -> sc mr er <= sc (Z.pos M) E)).
  { intros mr er -> -> M E HM.
    cbn [shr_record_of_loc inexact shr_r shr_s orb] in Hinex.
    assert (Hceil : m1 <= shr_m mrs' + (if decide (Z.pos pm mod 2 ^ n = 0) then 0 else 1)).
    { destruct (decide (Z.pos pm mod 2 ^ n = 0)) as [H0|H0].
      - replace (inexact mrs') with false in Hround; [lia|].
        symmetry. apply Hinex. done.
      - destruct (inexact mrs'); lia. }
    destruct (canonical_between pm M e E He ltac:(fold e1; lia) HM) as [HL HU].
    fold e1 in HL, HU. fold n in HL, HU. rewrite <- Hm' in HL, HU.
    split; intros Hle.
    - etransitivity; [apply HL, Hle|]. apply sc_le; lia.
    - etransitivity; [|apply HU, Hle]. apply sc_le; lia. }
  cbv beta iota.
  destruct m1 as [|p1|p1] eqn:Em1; [| |lia].
  - (* the value rounds to zero *)
    rewrite shr_nonpos by (cbn [Zdigits2]; rewrite fexp_binary32; lia).
    exists 0, e1. cbn. split_and!; [done|done|done|lia|by apply Hbounds].
  - destruct (decide (Z.pos p1 = 2 ^ 24)) as [Htop|Hlow].
    + (* the mantissa has overflowed: one more shift *)
      change (2 ^ 24) with 16777216 in Htop.
      assert (Hp1 : p1 = 16777216%positive) by lia. subst p1. clear Htop.
      replace (fexp prec emax (Zdigits2 16777216 + e1) - e1) with 1
        by (rewrite fexp_binary32; cbn [Zdigits2 digits2_pos Pos.succ]; lia).
      exists 8388608, (e1 + 1). cbn -[Z.leb emax prec].
      split_and!; [done|done|lia| |].
      * intros _. unfold canonical. rewrite fexp_binary32. cbn. lia.
      * apply Hbounds. rewrite sc_pow by lia. unfold sc. cbn. lia.
    + assert (Hp24 : Z.pos p1 < 2 ^ 24) by lia.
      pose proof (digits2_pos_le p1 24 ltac:(lia) Hp24) as Hdle.
      rewrite shr_nonpos by (cbn [Zdigits2]; rewrite fexp_binary32; lia).
      exists (Z.pos p1), e1. cbn -[Z.leb emax prec].
      split_and!; [done|done|done| |by apply Hbounds].
      intros _. unfold canonical. rewrite fexp_binary32. cbn [Zdigits2].
      destruct (decide (e1 = -149)) as [->|Hne]; [lia|].
      assert (H23 : 2 ^ 23 <= Z.pos p1) by (specialize (Hm'23 Hne); lia).
      pose proof (digits2_pos_ge p1 23 ltac:(lia) H23). lia.
Qed.

Lemma binary_round_aux_exact (pm : positive) (e : Z) :
  -400 <= e -> e <= fexp prec emax (Zdigits2 (Z.pos pm) + e) ->
  exists mr er,
    binary_round_aux prec emax false (Z.pos pm) e loc_Exact
      = match mr with
        | 0 => S754_zero false
        | Z.pos p =>
            if er <=? emax - prec then S754_finite false p er else S754_infinity false
        | Z.neg _ => S754_nan
        end
    /\ 0 <= mr /\ -149 <= er
    /\ (0 < mr -> canonical mr er)
    /\ (forall M E, canonical (Z.pos M) E ->
          (sc (Z.pos M) E <= sc (Z.pos pm) e -> sc (Z.pos M) E <= sc mr er)
          /\ (sc (Z.pos pm) e <= sc (Z.pos M) E -> sc mr er <= sc (Z.pos M) E)).
Proof.
  intros He Hn.
  destruct (binary_round_aux_shape false pm e loc_Exact He Hn)
    as (mr & er & Hr & Hmr & Her & Hcan & Hb).
  exists mr, er. split_and!; try done. by apply Hb.
Qed.

Lemma SFleb_finite (M m : positive) (E e : Z) :
  SFleb (S754_finite false M E) (S754_finite false m e) = true
  <-> E < e \/ (E = e /\ Z.pos M <= Z.pos m).
Proof.
  unfold SFleb, SFcompare.
  change (Pos.compare_cont Eq M m) with (Pos.compare M m).
  destruct (Z.compare_spec E e) as [Heq|Hlt|Hgt].
  - destruct (Pos.compare_spec M m) as [Hm|Hm|Hm]; split; intros H; try done; try lia.
  - split; intros H; [lia|done].
  - split; intros H; [done|lia].
Qed.

Lemma bounded_canonical (M : positive) (E : Z) :
  bounded prec emax M E = true <-> canonical (Z.pos M) E /\ E <= 104.
Proof.
  unfold bounded, canonical_mantissa, canonical. cbn [Zdigits2].
  rewrite andb_true_iff, Z.eqb_eq, Z.leb_le. reflexivity.
Qed.

Lemma binary_round_aux_rounds (pm : positive) (e : Z) :
  -400 <= e -> e <= fexp prec emax (Zdigits2 (Z.pos pm) + e) ->
  rounds (sc (Z.pos pm) e) (binary_round_aux prec emax false (Z.pos pm) e loc_Exact).
Proof.
  intros He Hn.
  destruct (binary_round_aux_exact pm e He Hn) as (mr & er & -> & Hmr & Her & Hcan & Hb).
  destruct mr as [|p|p]; [| |lia].
  - split; [by left|]. intros M E [HM HE]%bounded_canonical.
    destruct (Hb M E HM) as [HL HU]. split; [|done].
    intros Hle. apply HL in Hle. exfalso.
    destruct (canonical_pos _ _ HM) as (HE' & _).
    assert (0 < 2 ^ (E + 400)) by (apply Z.pow_pos_nonneg; lia).
    unfold sc in Hle. nia.
  - specialize (Hcan ltac:(lia)).
    change (emax - prec) with 104.
    destruct (Z.leb_spec er 104) as [Hfin|Hinf].
    + split.
      * right. right. exists p, er. split; [done|]. by apply bounded_canonical.
      * intros M E [HM HE]%bounded_canonical.
        destruct (Hb M E HM) as [HL HU]. split; intros Hle.
        -- apply SFleb_finite. apply canonical_order; auto.
        -- apply SFleb_finite. apply canonical_order; auto.
    + split; [by right; left|].
      intros M E [HM HE]%bounded_canonical.
      destruct (Hb M E HM) as [HL HU]. split; [done|].
      intros Hle. apply HU in Hle. apply canonical_order in Hle; [lia|done|done].
Qed.

Lemma Pos_iter_xO (p d : positive) :
  Z.pos (Pos.iter xO p d) = Z.pos p * 2 ^ Z.pos d
  /\ Z.pos (digits2_pos (Pos.iter xO p d)) = Z.pos (digits2_pos p) + Z.pos d.
Proof.
  induction d as [|d IH] using Pos.peano_ind.
  - cbn [Pos.iter]. cbn [digits2_pos]. rewrite Pos2Z.inj_succ. change (2 ^ 1) with 2.
    rewrite (Pos2Z.inj_xO p). lia.
  - rewrite Pos.iter_succ. cbn [digits2_pos].
    rewrite !Pos2Z.inj_succ, Z.pow_succ_r by lia.
    rewrite (Pos2Z.inj_xO (Pos.iter xO p d)). destruct IH as [-> ->]. lia.
Qed.

Lemma shl_align_spec (p : positive) (e e' : Z) :
  e' <= e ->
  exists q, shl_align p e e' = (q, e')
            /\ Z.pos q = Z.pos p * 2 ^ (e - e')
            /\ Z.pos (digits2_pos q) = Z.pos (digits2_pos p) + (e - e').
Proof.
  intros Hle. unfold shl_align.
  destruct (e' - e) as [|d|d] eqn:Ed; [|lia|].
  - exists p. assert (e' = e) as -> by lia. rewrite Z.sub_diag. cbn. split_and!; [done|lia|lia].
  - exists (Pos.iter xO p d). replace (e - e') with (Z.pos d) by lia.
    split; [done|]. apply Pos_iter_xO.
Qed.

Lemma binary_round_rounds (pm : positive) (e : Z) :
  -400 <= e -> rounds (sc (Z.pos pm) e) (binary_round prec emax false pm e).
Proof.
  intros He. unfold binary_round.
  set (e' := fexp prec emax (Z.pos (digits2_pos pm) + e)).
  assert (He' : -149 <= e') by (unfold e'; rewrite fexp_binary32; lia).
  destruct (decide (e' <= e)) as [Hle|Hgt].
  - destruct (shl_align_spec pm e e' Hle) as (q & -> & Hq & Hdq).
    replace (sc (Z.pos pm) e) with (sc (Z.pos q) e').
    + apply binary_round_aux_rounds; [lia|].
      cbn [Zdigits2]. rewrite Hdq.
      replace (Z.pos (digits2_pos pm) + (e - e') + e') with (Z.pos (digits2_pos pm) + e) by lia.
      fold e'. lia.
    + transitivity (sc (Z.pos pm) (e' + (e - e'))); [|f_equal; lia].
      rewrite sc_pow by lia. unfold sc. rewrite Hq. ring.
  - unfold shl_align. destruct (e' - e) as [|d|d] eqn:Ed; [lia| |lia].
    apply binary_round_aux_rounds; [done|]. cbn [Zdigits2]. fold e'. lia.
Qed.

(** the sum of two positive numbers of the format *)
Lemma SFadd_rounds (mx my : positive) (ex ey : Z) :
  -400 <= ex -> -400 <= ey ->
  rounds (sc (Z.pos mx) ex + sc (Z.pos my) ey)
         (SFadd prec emax (S754_finite false mx ex) (S754_finite false my ey)).
Proof.
  intros Hx Hy. cbn [SFadd cond_Zopp].
  set (ez := Z.min ex ey).
  destruct (shl_align_spec mx ex ez ltac:(lia)) as (qx & -> & Hqx & _).
  destruct (shl_align_spec my ey ez ltac:(lia)) as (qy & -> & Hqy & _).
  cbn [fst]. rewrite <- Pos2Z.inj_add. cbn [binary_normalize].
  replace (sc (Z.pos mx) ex + sc (Z.pos my) ey) with (sc (Z.pos (qx + qy)) ez).
  - apply binary_round_rounds. lia.
  - rewrite Pos2Z.inj_add, Hqx, Hqy.
    transitivity (sc (Z.pos mx) (ez + (ex - ez)) + sc (Z.pos my) (ez + (ey - ez)));
      [|f_equal; f_equal; lia].
    rewrite !sc_pow by lia. unfold sc. ring.
Qed.

(** the product of two positive numbers of the format, the first one normal *)
Lemma SFmul_rounds (mx my : positive) (ex ey : Z) :
  2 ^ 23 <= Z.pos mx -> -200 <= ex -> -200 <= ey ->
  rounds (sc (Z.pos (mx * my)) (ex + ey))
         (SFmul prec emax (S754_finite false mx ex) (S754_finite false my ey)).
Proof.
  intros Hmx Hx Hy. cbn [SFmul xorb].
  apply binary_round_aux_rounds; [lia|].
  rewrite fexp_binary32. cbn [Zdigits2].
  assert (H23 : 2 ^ 23 <= Z.pos (mx * my)) by (rewrite Pos2Z.inj_mul; nia).
  pose proof (digits2_pos_ge _ 23 ltac:(lia) H23). lia.
Qed.

Lemma SFltb_finite (M m : positive) (E e : Z) :
  SFltb (S754_finite false M E) (S754_finite false m e) = true
  <-> E < e \/ (E = e /\ Z.pos M < Z.pos m).
Proof.
  unfold SFltb, SFcompare.
  change (Pos.compare_cont Eq M m) with (Pos.compare M m).
  destruct (Z.compare_spec E e) as [Heq|Hlt|Hgt].
  - destruct (Pos.compare_spec M m) as [Hm|Hm|Hm]; split; intros H; try done; try lia.
  - split; intros H; [lia|done].
  - split; intros H; [done|lia].
Qed.

(** The length of a field line, for every value of
    [log(|direction| + 1) / 3] but NaN: [0.005f + 0.045f * clamp(t, 0, 1)]
    lies between [0.005f] and [0.05f]. *)
Lemma scale_between (t : spec_float) :
  number t = true ->
  let s := fadd f_0_005 (fmul f_0_045 (clamp t f_0 f_1)) in
  SFleb f_0_005 s = true /\ SFleb s (dec 5 2) = true.
Proof.
  intros Ht.
  destruct t as [sg|sg| |sg m e]; [by destruct sg|by destruct sg|done|].
  destruct sg; [done|].
  cbn [number valid_binary] in Ht.
  apply bounded_canonical in Ht as [Hcan He104].
  destruct (canonical_pos _ _ Hcan) as (He & Hm24 & _).
  unfold clamp, fmax, fmin. cbn [flt scalar].
  change (SFltb (S754_finite false m e) f_0) with false. cbv iota.
  change f_1 with (S754_finite false 8388608 (-23)).
  destruct (SFltb (S754_finite false 8388608 (-23)) (S754_finite false m e)) eqn:Hone;
    [done|].
  assert (Hle1 : e < -23 \/ (e = -23 /\ Z.pos m <= 8388608)).
  { destruct (decide (-23 < e \/ (-23 = e /\ 8388608 < Z.pos m))) as [H|H].
    - apply SFltb_finite in H. congruence.
    - lia. }
  clear Hone.
  change f_0_005 with (S754_finite false 10737418 (-31)).
  change f_0_045 with (S754_finite false 12079596 (-28)).
  change (dec 5 2) with (S754_finite false 13421773 (-28)).
  cbn [fadd fmul scalar].
  destruct (SFmul_rounds 12079596 m (-28) e ltac:(cbn; lia) ltac:(lia) ltac:(lia))
    as [Hu Hub].
  set (u := SFmul prec emax (S754_finite false 12079596 (-28)) (S754_finite false m e)) in *.
  assert (Hule : SFleb u (S754_finite false 12079596 (-28)) = true).
  { apply Hub; [done|].
    unfold sc. rewrite Pos2Z.inj_mul.
    replace (-28 + 400) with ((-28 + e + 400) + - e) by lia.
    rewrite (Z.pow_add_r 2 (-28 + e + 400)) by lia.
    assert (HP : 0 < 2 ^ (-28 + e + 400)) by (apply Z.pow_pos_nonneg; lia).
    assert (Hm : Z.pos m <= 2 ^ (- e)).
    { destruct Hle1 as [Hlt|[-> Hm]]; [|exact Hm].
      etransitivity; [apply Z.lt_le_incl, Hm24|]. apply Z.pow_le_mono_r; lia. }
    nia. }
  destruct Hu as [->|[->|(mu & eu & -> & Hbu)]]; [done|done|].
  apply SFleb_finite in Hule.
  apply bounded_canonical in Hbu as [Hcu Heu].
  destruct (canonical_pos _ _ Hcu) as (Heu' & Hmu24 & _).
  destruct (SFadd_rounds 10737418 mu (-31) eu ltac:(lia) ltac:(lia)) as [_ Hs].
  assert (HPu : 0 < 2 ^ (eu + 400)) by (apply Z.pow_pos_nonneg; lia).
  split.
  - apply (Hs 10737418%positive (-31)); [done|]. unfold sc. nia.
  - destruct (decide (eu = -28 /\ mu = 12079596%positive)) as [[-> ->]|Hne]; [done|].
    apply (Hs 13421773%positive (-28)); [done|].
    assert (Hstep : sc (Z.pos mu) eu <= sc 12079595 (-28)).
    { destruct Hule as [Hlt|[-> Hmu]].
      - unfold sc. replace (-28 + 400) with ((eu + 400) + (-28 - eu)) by lia.
        rewrite (Z.pow_add_r 2 (eu + 400)) by lia.
        assert (Hk : 2 ^ 1 <= 2 ^ (-28 - eu)) by (apply Z.pow_le_mono_r; lia).
        change (2 ^ 1) with 2 in Hk. change (2 ^ 24) with 16777216 in Hmu24. nia.
      - apply sc_le; [lia|]. assert (Z.pos mu <> 12079596) by (intros [= ->]; tauto). lia. }
    etransitivity; [apply Z.add_le_mono_l, Hstep|]. vm_compute. discriminate.
Qed.

(** ** Every result is a number

    What the operations on the way from the direction to the length of
    the line return: numbers or infinities, never a NaN and never a
    number out of its canonical form. *)

Lemma number_nonneg (r : spec_float) : nonneg_number r -> number r = true.
Proof. by intros [->|[->|(m & e & -> & Hb)]]. Qed.

Lemma binary_round_aux_number (sx : bool) (m e : Z) (l : location) :
  0 <= m -> -400 <= e -> e <= fexp prec emax (Zdigits2 m + e) ->
  number (binary_round_aux prec emax sx m e l) = true
  /\ (sx = false -> nonneg_number (binary_round_aux prec emax sx m e l)).
Proof.
  intros Hm He Hn. destruct m as [|pm|pm]; [| |lia].
  - (* nothing but what lies beyond the last digit *)
    cbn [Zdigits2] in Hn. rewrite fexp_binary32 in Hn.
    unfold binary_round_aux, shr_fexp. cbn [Zdigits2].
    replace (fexp prec emax (0 + e) - e) with (-149 - e) by (rewrite fexp_binary32; lia).
    destruct (shr_shifted (shr_record_of_loc 0 l) e (-149 - e))
      as (mrs' & -> & Hm' & _); [by rewrite shr_record_of_loc_m|lia|].
    rewrite shr_record_of_loc_m, Z.div_0_l in Hm'
      by (apply Z.pow_nonzero; lia).
    pose proof (round_nearest_even_bounds mrs') as Hround. rewrite Hm' in Hround.
    replace (e + (-149 - e)) with (-149) by lia.
    assert (Hone : round_nearest_even (shr_m mrs') (loc_of_shr_record mrs') = 0
                   \/ round_nearest_even (shr_m mrs') (loc_of_shr_record mrs') = 1)
      by (rewrite Hm'; destruct (inexact mrs'); lia).
    destruct Hone as [-> | ->].
    + split; [by destruct sx|]. intros ->. by left.
    + split; [by destruct sx|]. intros ->. right. right. by exists 1%positive, (-149).
  - destruct (binary_round_aux_shape sx pm e l He Hn)
      as (mr & er & -> & Hmr & Her & Hcan & _).
    destruct mr as [|p|p]; [| |lia].
    + split; [done|]. intros ->. by left.
    + specialize (Hcan ltac:(lia)). change (emax - prec) with 104.
      destruct (Z.leb_spec er 104) as [Hfin|Hinf].
      * assert (Hb : bounded prec emax p er = true) by (by apply bounded_canonical).
        split; [done|]. intros ->. right. right. by exists p, er.
      * split; [done|]. intros ->. right. by left.
Qed.

Lemma digits2_pos_mul (p q : positive) :
  Z.pos (digits2_pos p) + Z.pos (digits2_pos q) - 1 <= Z.pos (digits2_pos (p * q)).
Proof.
  pose proof (digits2_pos_bounds p) as [Hp _].
  pose proof (digits2_pos_bounds q) as [Hq _].
  assert (H : 2 ^ (Z.pos (digits2_pos p) + Z.pos (digits2_pos q) - 2) <= Z.pos (p * q)).
  { replace (Z.pos (digits2_pos p) + Z.pos (digits2_pos q) - 2)
      with ((Z.pos (digits2_pos p) - 1) + (Z.pos (digits2_pos q) - 1)) by lia.
    rewrite Z.pow_add_r, Pos2Z.inj_mul by lia.
    apply Z.mul_le_mono_nonneg; [apply Z.pow_nonneg| |apply Z.pow_nonneg|]; lia. }
  apply digits2_pos_ge in H; lia.
Qed.

Lemma canonical_digits (m : positive) (e : Z) :
  canonical (Z.pos m) e ->
  -149 <= e /\ Z.pos (digits2_pos m) <= 24 /\ (e = -149 \/ Z.pos (digits2_pos m) = 24).
Proof. unfold canonical. rewrite fexp_binary32. cbn [Zdigits2]. lia. Qed.

(** the product of two binary32 numbers *)
Lemma SFmul_number (sx sy : bool) (mx my : positive) (ex ey : Z) :
  bounded prec emax mx ex = true -> bounded prec emax my ey = true ->
  number (SFmul prec emax (S754_finite sx mx ex) (S754_finite sy my ey)) = true
  /\ (xorb sx sy = false ->
      nonneg_number (SFmul prec emax (S754_finite sx mx ex) (S754_finite sy my ey))).
Proof.
  intros [Hx Hx']%bounded_canonical [Hy Hy']%bounded_canonical.
  destruct (canonical_digits _ _ Hx) as (Hex & _ & Hdx).
  destruct (canonical_digits _ _ Hy) as (Hey & _ & Hdy).
  cbn [SFmul].
  assert (Hn : ex + ey <= fexp prec emax (Zdigits2 (Z.pos (mx * my)) + (ex + ey))).
  { rewrite fexp_binary32. cbn [Zdigits2].
    pose proof (digits2_pos_mul mx my).
    assert (0 < Z.pos (digits2_pos mx)) by lia.
    assert (0 < Z.pos (digits2_pos my)) by lia. lia. }
  destruct (binary_round_aux_number (xorb sx sy) (Z.pos (mx * my)) (ex + ey) loc_Exact)
    as [Hnum Hnn]; [lia|lia|done|].
  split; [done|]. intros Hs. apply Hnn, Hs.
Qed.


(** the sum of two numbers that are not negative *)
Lemma SFadd_nonneg (x y : spec_float) :
  nonneg_number x -> nonneg_number y -> nonneg_number (SFadd prec emax x y).
Proof.
  intros [->|[->|(mx & ex & -> & Hx)]] [->|[->|(my & ey & -> & Hy)]];
    try (by left); try (by right; left);
    try (right; right; by eexists _, _).
  apply bounded_canonical in Hx as [Hx _]. apply bounded_canonical in Hy as [Hy _].
  destruct (canonical_digits _ _ Hx) as (Hex & _).
  destruct (canonical_digits _ _ Hy) as (Hey & _).
  apply (SFadd_rounds mx my ex ey); lia.
Qed.

(** the square root of a number that is not negative *)
Lemma SFsqrt_nonneg (x : spec_float) :
  nonneg_number x -> nonneg_number (SFsqrt prec emax x).
Proof.
  intros [->|[->|(m & e & -> & Hb)]]; [by left|by right; left|].
  apply bounded_canonical in Hb as [Hc He104].
  destruct (canonical_digits _ _ Hc) as (He & Hd24 & _).
  cbn [SFsqrt]. unfold SFsqrt_core_binary. cbn [Zdigits2].
  set (d := Z.pos (digits2_pos m)) in *.
  assert (Hd : 1 <= d) by (unfold d; lia).
  set (e' := Z.min (fexp prec emax (Z.div2 (d + e + 1))) (Z.div2 e)).
  assert (He' : 2 * e' <= e /\ 2 * e' <= d + e - 47 /\ -200 <= e').
  { unfold e'. rewrite fexp_binary32, !Z.div2_div.
    Z.to_euclidean_division_equations. lia. }
  destruct He' as (He'1 & He'2 & He'3).
  set (s := e - 2 * e').
  assert (Hm' : match s with
                | 0 => Z.pos m
                | Z.pos _ => Z.shiftl (Z.pos m) s
                | Z.neg _ => 0
                end = Z.pos m * 2 ^ s).
  { destruct s as [|p|p] eqn:Es; [cbn; lia| |lia].
    rewrite Z.shiftl_mul_pow2; lia. }
  rewrite Hm'.
  assert (H46 : 2 ^ 46 <= Z.pos m * 2 ^ s).
  { pose proof (digits2_pos_bounds m) as [Hlo _]. fold d in Hlo.
    replace 46 with ((d - 1) + (47 - d)) by lia.
    rewrite Z.pow_add_r by lia.
    apply Z.mul_le_mono_nonneg; [apply Z.pow_nonneg; lia|done|apply Z.pow_nonneg; lia|].
    apply Z.pow_le_mono_r; unfold s; lia. }
  pose proof (Z.sqrtrem_sqrt (Z.pos m * 2 ^ s)) as Hq.
  destruct (Z.sqrtrem (Z.pos m * 2 ^ s)) as [q r]. cbn [fst] in Hq. subst q.
  assert (H23 : 2 ^ 23 <= Z.sqrt (Z.pos m * 2 ^ s)).
  { change (2 ^ 23) with (Z.sqrt (2 ^ 23 * 2 ^ 23)).
    apply Z.sqrt_le_mono. exact H46. }
  destruct (Z.sqrt (Z.pos m * 2 ^ s)) as [|q|q] eqn:Eq; [cbn in H23; lia| |lia].
  refine (proj2 (binary_round_aux_number false (Z.pos q) e' _ _ _ _) eq_refl); [lia|lia|].
  rewrite fexp_binary32. cbn [Zdigits2].
  pose proof (digits2_pos_ge q 23 ltac:(lia) H23). lia.
Qed.

(** the quotient of a number and a binary32 number other than zero *)
Lemma SFdiv_number (x : spec_float) (sy : bool) (my : positive) (ey : Z) :
  number x = true -> bounded prec emax my ey = true ->
  number (SFdiv prec emax x (S754_finite sy my ey)) = true.
Proof.
  intros Hx [Hy Hy104]%bounded_canonical.
  destruct (canonical_digits _ _ Hy) as (Hey & _).
  destruct x as [sx|sx| |sx mx ex]; [done|done|done|].
  cbn [number valid_binary] in Hx.
  apply bounded_canonical in Hx as [Hx Hx104].
  destruct (canonical_digits _ _ Hx) as (Hex & _).
  cbn [SFdiv]. unfold SFdiv_core_binary. cbn [Zdigits2].
  set (d1 := Z.pos (digits2_pos mx)). set (d2 := Z.pos (digits2_pos my)).
  set (e' := Z.min (fexp prec emax (d1 + ex - (d2 + ey))) (ex - ey)).
  assert (He' : e' <= ex - ey /\ -400 <= e'
                /\ (e' <= -149 \/ e' <= d1 + ex - (d2 + ey) - 24)).
  { unfold e'. rewrite fexp_binary32. lia. }
  destruct He' as (He'1 & He'2 & He'3).
  set (s := ex - ey - e').
  assert (Hm' : match s with
                | 0 => Z.pos mx
                | Z.pos _ => Z.shiftl (Z.pos mx) s
                | Z.neg _ => 0
                end = Z.pos mx * 2 ^ s).
  { destruct s as [|p|p] eqn:Es; [cbn; lia| |lia].
    rewrite Z.shiftl_mul_pow2; lia. }
  rewrite Hm'.
  assert (Hq : fst (Z.div_eucl (Z.pos mx * 2 ^ s) (Z.pos my))
               = Z.pos mx * 2 ^ s / Z.pos my).
  { unfold Z.div. by destruct (Z.div_eucl _ _). }
  destruct (Z.div_eucl (Z.pos mx * 2 ^ s) (Z.pos my)) as [q r]. cbn [fst] in Hq. subst q.
  assert (HS : 0 < 2 ^ s) by (apply Z.pow_pos_nonneg; unfold s; lia).
  assert (Hq0 : 0 <= Z.pos mx * 2 ^ s / Z.pos my) by (apply Z.div_pos; lia).
  apply binary_round_aux_number; [done|done|].
  rewrite fexp_binary32.
  destruct He'3 as [Hlow|Hhigh]; [lia|].
  assert (H23 : 2 ^ 23 <= Z.pos mx * 2 ^ s / Z.pos my).
  { apply Z.div_le_lower_bound; [lia|].
    pose proof (digits2_pos_bounds mx) as [Hlo _]. fold d1 in Hlo.
    pose proof (digits2_pos_bounds my) as [_ Hhi]. fold d2 in Hhi.
    apply Z.le_trans with (2 ^ d2 * 2 ^ 23); [apply Z.mul_le_mono_nonneg_r; lia|].
    apply Z.le_trans with (2 ^ (d1 - 1) * 2 ^ s);
      [|apply Z.mul_le_mono_nonneg_r; lia].
    rewrite <- !Z.pow_add_r by (unfold d1, d2, s in *; lia).
    apply Z.pow_le_mono_r; unfold s; lia. }
  destruct (Z.pos mx * 2 ^ s / Z.pos my) as [|q|q] eqn:Eq; [cbn in H23; lia| |lia].
  cbn [Zdigits2]. pose proof (digits2_pos_ge q 23 ltac:(lia) H23). lia.
Qed.

(** a number that is not negative, plus one: a number, and at least one *)
Lemma SFadd_one (x : spec_float) :
  nonneg_number x ->
  number (fadd x f_1) = true /\ SFleb f_1 (fadd x f_1) = true.
Proof.
  change f_1 with (S754_finite false 8388608 (-23)). cbn [fadd scalar].
  intros [->|[->|(m & e & -> & Hb)]]; [done|done|].
  apply bounded_canonical in Hb as [Hc _].
  destruct (canonical_digits _ _ Hc) as (He & _).
  destruct (SFadd_rounds m 8388608 e (-23) ltac:(lia) ltac:(lia)) as [Hn Hr].
  split; [by apply number_nonneg|].
  apply Hr; [done|].
  assert (0 <= sc (Z.pos m) e); [|lia].
  unfold sc. apply Z.mul_nonneg_nonneg; [lia|]. apply Z.pow_nonneg. lia.
Qed.

Lemma square_nonneg (a : spec_float) : finite_number a -> nonneg_number (fmul a a).
Proof.
  intros [Hn Hf]. destruct a as [s|s| |s m e]; [|done|done|].
  - left. by destruct s.
  - cbn [number valid_binary] in Hn.
    apply (SFmul_number s s m m e e Hn Hn). by destruct s.
Qed.

(** The argument of the logarithm: for a finite direction,
    [|direction| + 1] is a number, and at least one. *)
Lemma length_plus_one (direction : vec2 spec_float) :
  finite_number (x direction) -> finite_number (y direction) ->
  number (fadd (length2 direction) f_1) = true
  /\ SFleb f_1 (fadd (length2 direction) f_1) = true.
Proof.
  intros Hx Hy. apply SFadd_one. unfold length2, dot. cbn [fsqrt fadd scalar].
  apply SFsqrt_nonneg, SFadd_nonneg; by apply square_nonneg.
Qed.
End RoundingTheory.

(** * The length and the direction of a field line *)

Section FieldLine.
Import GravityPhysicsSystem.
Local Open Scope vec_scope.

(** The accumulation loop adds the forces in the order of the bodies. *)
Lemma netForce_fieldSum {F : Type} {ops : Scalar F} (self : GravityPhysicsSystem.t F)
    (bodies : list (SveGameObject F)) (P : SveGameObject F) :
  Vec2FieldSystem.netForce self bodies P = Spec.fieldSum self bodies P.
Proof. unfold Vec2FieldSystem.netForce, Spec.fieldSum. by rewrite foldl_fmap. Qed.

(** C6.  For the sample point [P] at any position of the field,
    [Vec2FieldSystem::update] accumulates [direction], the sum of
    [computeForce(B, P)] over the bodies [B], and of the point [P'] it
    returns at that position
    [scale.x = 0.005 + 0.045 * clamp(ln(|direction| + 1) / 3, 0, 1)] and
    [rotation = atan2(direction.y, direction.x)]:
    - in every arithmetic, with the operations and literals of that
      arithmetic, the forces added in the order of the bodies;
    - over the reals, where the sum does not depend on the order, and
      the written [scale.x] lies in [[0.005, 0.05]];
    - in binary32, for every C library: when the direction is finite,
      the argument [|direction| + 1] of [log] is a number, and at least
      1; and for every direction for which [log] returns a number or an
      infinity (not a NaN), the written [scale.x] lies between [0.005f]
      and [0.05f = 0.005f + 0.045f], the binary32 numbers
      [10737418 * 2^-31] and [13421773 * 2^-28]. *)
Theorem field_line_scale_and_rotation :
  (forall (F : Type) (ops : Scalar F) (lib : Libm F) (self : GravityPhysicsSystem.t F)
          (bodies field : list (SveGameObject F)) (i : nat) (P : SveGameObject F),
     field !! i = Some P ->
     let direction := Spec.fieldSum self bodies P in
     exists P',
       (Vec2FieldSystem.update self bodies field).2 !! i = Some P'
       /\ x (scale (transform2d P'))
          = (f_0_005 + f_0_045 * clamp (flog (length2 direction + f_1) / f_3) f_0 f_1)%fp
       /\ rotation (transform2d P') = fatan2 (y direction) (x direction))
  /\ (forall (atan2 : R -> R -> R) (self : GravityPhysicsSystem.t R)
             (bodies field : list (SveGameObject R)) (i : nat) (P : SveGameObject R),
        field !! i = Some P ->
        let direction := Spec.fieldAt self bodies P in
        exists P',
          (Vec2FieldSystem.update (lib := Real.libm atan2) self bodies field).2 !! i = Some P'
          /\ x (scale (transform2d P'))
             = (0.005 + 0.045 * clamp (ln (length2 direction + 1) / 3) 0 1)%R
          /\ rotation (transform2d P') = atan2 (y direction) (x direction)
          /\ (0.005 <= x (scale (transform2d P')) <= 0.05)%R)
  /\ (forall (lib : Libm spec_float) (self : GravityPhysicsSystem.t spec_float)
             (bodies field : list (SveGameObject spec_float)) (i : nat)
             (P : SveGameObject spec_float),
        field !! i = Some P ->
        let direction := Spec.fieldSum self bodies P in
        let a := (length2 direction + f_1)%fp in
        (finite_number (x direction) -> finite_number (y direction) ->
         Binary32.number a = true /\ SFleb f_1 a = true)
        /\ (Binary32.number (flog a) = true ->
            exists P',
              (Vec2FieldSystem.update self bodies field).2 !! i = Some P'
              /\ x (scale (transform2d P'))
                 = (f_0_005 + f_0_045 * clamp (flog a / f_3) f_0 f_1)%fp
              /\ SFleb (S754_finite false 10737418 (-31)) (x (scale (transform2d P'))) = true
              /\ SFleb (x (scale (transform2d P'))) (S754_finite false 13421773 (-28)) = true
              /\ f_0_005 = S754_finite false 10737418 (-31)
              /\ (f_0_005 + f_0_045)%fp = S754_finite false 13421773 (-28))).
Proof.
  assert (Hwritten : forall (F : Type) (ops : Scalar F) (lib : Libm F)
            (self : GravityPhysicsSystem.t F) (bodies field : list (SveGameObject F))
            (i : nat) (P : SveGameObject F),
     field !! i = Some P ->
     exists P',
       (Vec2FieldSystem.update self bodies field).2 !! i = Some P'
       /\ x (scale (transform2d P'))
          = (f_0_005 + f_0_045
               * clamp (flog (length2 (Spec.fieldSum self bodies P) + f_1) / f_3) f_0 f_1)%fp
       /\ rotation (transform2d P')
          = fatan2 (y (Spec.fieldSum self bodies P)) (x (Spec.fieldSum self bodies P))).
  { intros F ops lib self bodies field i P HP.
    exists (Vec2FieldSystem.orient (Vec2FieldSystem.netForce self bodies P) P).
    split; [|split].
    - unfold Vec2FieldSystem.update. cbn [snd]. by rewrite list_lookup_fmap, HP.
    - cbn. by rewrite netForce_fieldSum.
    - cbn. by rewrite netForce_fieldSum. }
  split_and!.
  - intros F ops lib self bodies field i P HP direction. by apply Hwritten.
  - intros atan2 self bodies field i P HP. by apply field_line_real.
  - intros lib self bodies field i P HP direction a. split.
    + intros Hx Hy. by apply length_plus_one.
    + intros Hlog.
      destruct (Hwritten _ _ lib self bodies field i P HP) as (P' & HP' & Hx & _).
      exists P'. fold direction in Hx. fold a in Hx.
      assert (Ht : Binary32.number (flog a / f_3)%fp = true)
        by (by apply (SFdiv_number (flog a) false 12582912 (-22))).
      destruct (scale_between _ Ht) as [Hlow Hhigh]. rewrite <- Hx in Hlow, Hhigh.
      split_and!; done.
Qed.

(** Two field lines in binary32, with a C library that has
    [log(1) = +0] and [log(+inf) = +inf]; the strength is the [0.81f] of
    [run].  A body of mass [1e-10f] at [(1, 0)] pulls the sample point
    of mass 1 at the origin with [8.1e-11], a finite direction:
    [|direction| + 1] rounds to 1, and the line gets the length
    [0.005f].  A body of mass [1e38f] at [(1, 1)] and a sample point of
    mass 10: the product of the masses overflows, [|direction|] is
    [+inf], and the line gets the length [0.05f]. *)
Lemma field_line_scale_and_rotation_witness :
  let self := Build (Binary32.dec 81 2) in
  let P := Binary32.body f_1 f_0 f_0 in
  let light := Binary32.body (Binary32.dec 1 10) f_1 f_0 in
  let Q := Binary32.body (Binary32.of_Z 10) f_0 f_0 in
  let heavy := Binary32.body (Binary32.of_Z (10 ^ 38)) f_1 f_1 in
  let a bodies S := fadd (length2 (Spec.fieldSum self bodies S)) f_1 in
  ([P] !! 0 = Some P
   /\ Spec.fieldSum self [light] P = Vec2 (S754_finite false 11673330 (-57)) (S754_zero false)
   /\ finite_number (x (Spec.fieldSum self [light] P))
   /\ finite_number (y (Spec.fieldSum self [light] P))
   /\ Binary32.number (flog (Libm := Binary32.special_values) (a [light] P)) = true
   /\ Binary32.number (a [light] P) = true /\ SFleb f_1 (a [light] P) = true
   /\ exists P',
        (Vec2FieldSystem.update (lib := Binary32.special_values) self [light] [P]).2 !! 0
        = Some P'
        /\ x (scale (transform2d P')) = S754_finite false 10737418 (-31))
  /\ ([Q] !! 0 = Some Q
      /\ Binary32.number (flog (Libm := Binary32.special_values) (a [heavy] Q)) = true
      /\ exists Q',
           (Vec2FieldSystem.update (lib := Binary32.special_values) self [heavy] [Q]).2 !! 0
           = Some Q'
           /\ x (scale (transform2d Q')) = S754_finite false 13421773 (-28)).
Proof.
  intros self P light Q heavy a.
  destruct field_line_scale_and_rotation as (_ & _ & Hfield).
  split.
  - destruct (Hfield Binary32.special_values self [light] [P] 0 P eq_refl)
      as (Harg & Hline).
    assert (Hx : finite_number (x (Spec.fieldSum self [light] P))) by (by vm_compute).
    assert (Hy : finite_number (y (Spec.fieldSum self [light] P))) by (by vm_compute).
    destruct (Harg Hx Hy) as (Hnum & Hone).
    destruct Hline as (P' & HP' & Hscale & _); [vm_compute; reflexivity|].
    split_and!; [reflexivity|vm_compute; reflexivity|exact Hx|exact Hy
                 |vm_compute; reflexivity|exact Hnum|exact Hone|].
    exists P'. split; [exact HP'|]. rewrite Hscale. vm_compute. reflexivity.
  - split; [reflexivity|]. split; [vm_compute; reflexivity|].
    destruct (Hfield Binary32.special_values self [heavy] [Q] 0 Q eq_refl)
      as (_ & Hline).
    destruct Hline as (Q' & HQ' & Hscale & _); [vm_compute; reflexivity|].
    exists Q'. split; [exact HQ'|]. rewrite Hscale. vm_compute. reflexivity.
Defined.
End FieldLine.

(** * What each system leaves alone *)

Section Frames.
Context {F : Type} {ops : Scalar F} {lib : Libm F}.
Variable self : GravityPhysicsSystem.t F.
Import FirstApp.

(** C9.  In every arithmetic: the call of [GravityPhysicsSystem::update]
    leaves the vector field as it is and computes the same bodies
    whatever the field holds; the call of [Vec2FieldSystem::update]
    returns the bodies as they are and, of each sample point, changes
    nothing but [scale.x] and [rotation]: translation, [scale.y], colour,
    velocity, mass and model stay. *)
Theorem systems_leave_the_rest_alone (dt : F) (substeps : N) (w : World F) :
  vectorField (updateGravity self dt substeps w) = vectorField w
  /\ (forall field,
        physicsObjects (updateGravity self dt substeps
                          {| physicsObjects := physicsObjects w; vectorField := field |})
        = physicsObjects (updateGravity self dt substeps w))
  /\ physicsObjects (updateVecField self w) = physicsObjects w
  /\ Forall2 (fun P P' =>
                translation (transform2d P') = translation (transform2d P)
                /\ y (scale (transform2d P')) = y (scale (transform2d P))
                /\ color P' = color P
                /\ velocity (rigidBody2d P') = velocity (rigidBody2d P)
                /\ mass (rigidBody2d P') = mass (rigidBody2d P)
                /\ model P' = model P)
             (vectorField w) (vectorField (updateVecField self w)).
Proof.
  split_and!; try done.
  unfold updateVecField, Vec2FieldSystem.update. cbn [vectorField].
  induction (vectorField w) as [|P field IH]; constructor; done.
Qed.

(** C10.  In every arithmetic: [update] with [substeps = 0] returns the
    bodies as they are, and so does the call in the world of [run]. *)
Theorem update_zero_substeps (objs : list (SveGameObject F)) (dt : F) (w : World F) :
  GravityPhysicsSystem.update self objs dt 0 = objs
  /\ updateGravity self dt 0 w = w.
Proof. split; [done|]. by destruct w. Qed.
End Frames.

(** * More of the gravity system *)

Section GravityFrame.
Context {F : Type} {ops : Scalar F}.
Variable self : GravityPhysicsSystem.t F.
Import GravityPhysicsSystem.
Local Open Scope vec_scope.

Lemma kept_alter_velocity (k : SveGameObject F -> vec2 F) (i : nat)
    (objs : list (SveGameObject F)) :
  kept <$> alter (fun o => set_velocity o (k o)) i objs = kept <$> objs.
Proof.
  apply list_eq; intros j. rewrite !list_lookup_fmap.
  destruct (decide (i = j)) as [->|Hne].
  - rewrite list_lookup_alter_eq. by destruct (objs !! j).
  - by rewrite list_lookup_alter_ne.
Qed.

Lemma applyForce_kept (dt : F) (i j : nat) (objs : list (SveGameObject F)) :
  kept <$> applyForce self dt i j objs = kept <$> objs.
Proof.
  unfold applyForce. destruct (objs !! i), (objs !! j); try done.
  by rewrite !kept_alter_velocity.
Qed.

Lemma stepSimulation_kept (dt : F) (objs : list (SveGameObject F)) :
  kept <$> stepSimulation self objs dt = kept <$> objs.
Proof.
  unfold stepSimulation, moveObjects. rewrite <- list_fmap_compose.
  change (kept <$> pairLoop self dt objs = kept <$> objs).
  rewrite pairLoop_pairs. generalize (Spec.unorderedPairs (length objs)). intros l.
  revert objs. induction l as [|p l IH]; intros objs; [done|].
  cbn. by rewrite IH, applyForce_kept.
Qed.

(** X1.  In every arithmetic, [update] changes nothing of a body but its
    velocity and its position: the bodies are as many as before, and
    model, colour, scale, rotation and mass of each are as they were. *)
Theorem update_keeps_the_rest (objs : list (SveGameObject F)) (dt : F) (substeps : N) :
  length (update self objs dt substeps) = length objs
  /\ kept <$> update self objs dt substeps = kept <$> objs.
Proof.
  assert (Hkept : kept <$> update self objs dt substeps = kept <$> objs).
  { unfold update. generalize (fdiv dt (of_uint substeps)). intros stepDelta.
    induction substeps as [|n IH] using N.peano_ind; [done|].
    by rewrite N.iter_succ, stepSimulation_kept. }
  split; [|done].
  by rewrite <- (length_fmap kept), Hkept, length_fmap.
Qed.

Lemma unorderedPairs_from (k m : nat) :
  2 * length (i ← seq k m; pair i <$> seq (S i) (k + m - S i)) = m * (m - 1).
Proof.
  revert k. induction m as [|m IH]; intros k; [done|].
  cbn [seq]. rewrite bind_cons, length_app, length_fmap, length_seq.
  replace (k + S m) with (S k + m) by lia.
  specialize (IH (S k)). revert IH.
  generalize (length (i ← seq (S k) m; pair i <$> seq (S i) (S k + m - S i))).
  intros L IH. replace (S k + m - S k) with m by lia.
  replace (S m - 1) with m by lia.
  destruct m as [|m]; [lia|]. replace (S m - 1) with m in IH by lia. nia.
Qed.

(** X2.  The two loops of a step run their body, and so call
    [computeForce], once for each of [n * (n - 1) / 2] pairs of [n]
    bodies. *)
Theorem pairLoop_runs_each_pair_once (dt : F) (objs : list (SveGameObject F)) :
  pairLoop self dt objs
  = foldl (fun st p => applyForce self dt p.1 p.2 st) objs
          (Spec.unorderedPairs (length objs))
  /\ 2 * length (Spec.unorderedPairs (length objs)) = length objs * (length objs - 1).
Proof.
  split; [apply pairLoop_pairs|].
  apply (unorderedPairs_from 0 (length objs)).
Qed.
End GravityFrame.

(** * More of the vector field *)

Section FieldAgain.
Context {F : Type} {ops : Scalar F} {lib : Libm F}.
Variable self : GravityPhysicsSystem.t F.
Local Open Scope vec_scope.

Lemma netForce_placed (bodies : list (SveGameObject F)) (vf vf' : SveGameObject F) :
  placed vf = placed vf' ->
  Vec2FieldSystem.netForce self bodies vf = Vec2FieldSystem.netForce self bodies vf'.
Proof.
  intros Hp. unfold Vec2FieldSystem.netForce. generalize (@vzero F _).
  induction bodies as [|B bodies IH]; intros acc; [done|].
  cbn [foldl]. by rewrite IH, (computeForce_placed self B B vf vf').
Qed.

Lemma orient_orient (d d' : vec2 F) (vf : SveGameObject F) :
  Vec2FieldSystem.orient d (Vec2FieldSystem.orient d' vf) = Vec2FieldSystem.orient d vf.
Proof. done. Qed.

(** X3.  In every arithmetic, [Vec2FieldSystem::update] is idempotent
    while the bodies stay: a second call with the same bodies returns
    the field of the first, and the field keeps its length. *)
Theorem field_update_idempotent (bodies field : list (SveGameObject F)) :
  let once := Vec2FieldSystem.update self bodies field in
  Vec2FieldSystem.update self once.1 once.2 = once
  /\ length once.2 = length field.
Proof.
  cbn zeta. unfold Vec2FieldSystem.update. cbn [fst snd]. split.
  - f_equal. rewrite <- list_fmap_compose. apply list_fmap_ext. intros _ vf _.
    cbn. rewrite orient_orient.
    by rewrite (netForce_placed bodies (Vec2FieldSystem.orient _ vf) vf).
  - by rewrite length_fmap.
Qed.
End FieldAgain.

(** * The motion of the bodies, over the reals *)

Section Motion.
Import GravityPhysicsSystem.
Local Open Scope R_scope.
Local Open Scope vec_scope.
Variable self : GravityPhysicsSystem.t R.

Lemma stepSimulation_single (A : SveGameObject R) (stepDelta : R) :
  stepSimulation self [A] stepDelta
  = [set_translation A
       (translation (transform2d A) +v stepDelta *v velocity (rigidBody2d A))].
Proof. done. Qed.

Lemma set_translation_eq (A : SveGameObject R) (p q : vec2 R) :
  x p = x q -> y p = y q -> set_translation A p = set_translation A q.
Proof. intros Hx Hy. by rewrite (vec2_eq p q Hx Hy). Qed.

Lemma lone_body_steps (A : SveGameObject R) (stepDelta : R) (n : N) :
  N.iter n (fun objs => stepSimulation self objs stepDelta) [A]
  = [set_translation A
       (translation (transform2d A) +v (IZR (Z.of_N n) * stepDelta) *v velocity (rigidBody2d A))].
Proof.
  induction n as [|n IH] using N.peano_ind.
  - cbn [N.iter]. f_equal.
    transitivity (set_translation A (translation (transform2d A))).
    + by destruct A as [? ? [? ? ?] ?].
    + apply set_translation_eq; cbn; ring.
  - rewrite N.iter_succ, IH, stepSimulation_single, N2Z.inj_succ, succ_IZR. f_equal.
    change (set_translation (set_translation A ?p) ?q) with (set_translation A q).
    apply set_translation_eq; cbn; ring.
Qed.

(** X4.  Over the reals, a body that is alone moves uniformly: [update]
    with any [substeps >= 1] leaves its velocity and adds [dt * velocity]
    to its position. *)
Theorem lone_body_moves_uniformly (A : SveGameObject R) (dt : R) (substeps : N) :
  substeps <> 0%N ->
  update self [A] dt substeps
  = [set_translation A (translation (transform2d A) +v dt *v velocity (rigidBody2d A))].
Proof.
  intros Hsub. unfold update. rewrite lone_body_steps. f_equal.
  apply set_translation_eq; cbn; field; apply not_0_IZR; lia.
Qed.
End Motion.

Lemma lone_body_moves_uniformly_witness :
  5%N <> 0%N
  /\ GravityPhysicsSystem.update (GravityPhysicsSystem.Build 0.81%R)
       [Real.body 1 0 0 3 4] 2%R 5
     = [Real.body 1 6 8 3 4].
Proof.
  assert (Hsub : 5%N <> 0%N) by done.
  split; [exact Hsub|].
  rewrite (lone_body_moves_uniformly (GravityPhysicsSystem.Build 0.81%R)
             (Real.body 1 0 0 3 4) 2%R 5 Hsub).
  f_equal.
  change (Real.body 1 6 8 3 4) with (set_translation (Real.body 1 0 0 3 4) (Vec2 6%R 8%R)).
  apply set_translation_eq; cbn; ring.
Defined.

(** * The total momentum, over the reals *)

Section Conservation.
Import GravityPhysicsSystem.
Local Open Scope R_scope.
Local Open Scope vec_scope.
Variable self : GravityPhysicsSystem.t R.

Lemma momentum_alter (f : SveGameObject R -> SveGameObject R) (i : nat)
    (objs : list (SveGameObject R)) (o : SveGameObject R) :
  objs !! i = Some o ->
  momentum (alter f i objs)
  = momentum objs
    +v (mass (rigidBody2d (f o)) *v velocity (rigidBody2d (f o))
        -v mass (rigidBody2d o) *v velocity (rigidBody2d o)).
Proof.
  revert i. induction objs as [|a objs IH]; intros [|i] Hi; try done.
  - injection Hi as ->. unfold momentum. cbn [alter list_alter fmap list_fmap foldr].
    apply vec2_eq; cbn; ring.
  - cbn in Hi. unfold momentum in *. cbn [alter list_alter fmap list_fmap foldr].
    change (list_alter f i objs) with (alter f i objs).
    rewrite (IH i Hi). apply vec2_eq; cbn; ring.
Qed.

Lemma kept_mass (objs objs' : list (SveGameObject R)) (i : nat) (o' : SveGameObject R) :
  kept <$> objs' = kept <$> objs ->
  Forall (fun o => mass (rigidBody2d o) <> 0) objs ->
  objs' !! i = Some o' -> mass (rigidBody2d o') <> 0.
Proof.
  intros Hkept Hmass Hi.
  assert (Hk : kept <$> objs !! i = Some (kept o')).
  { by rewrite <- list_lookup_fmap, <- Hkept, list_lookup_fmap, Hi. }
  destruct (objs !! i) as [o|] eqn:Ho; [|done].
  rewrite Forall_lookup in Hmass. specialize (Hmass i o Ho).
  cbn in Hk. unfold kept in Hk. injection Hk as _ _ _ _ Hm. by rewrite <- Hm.
Qed.

Lemma applyForce_momentum (dt : R) (i j : nat) (objs : list (SveGameObject R)) :
  i <> j ->
  (forall k o, objs !! k = Some o -> mass (rigidBody2d o) <> 0) ->
  momentum (applyForce self dt i j objs) = momentum objs.
Proof.
  intros Hij Hmass. unfold applyForce.
  destruct (objs !! i) as [a|] eqn:Ha; [|done].
  destruct (objs !! j) as [c|] eqn:Hc; [|done].
  rewrite (momentum_alter _ j _ c) by by rewrite list_lookup_alter_ne.
  rewrite (momentum_alter _ i _ a) by done.
  pose proof (Hmass i a Ha). pose proof (Hmass j c Hc).
  apply vec2_eq; cbn; field; done.
Qed.

Lemma stepSimulation_momentum (dt : R) (objs : list (SveGameObject R)) :
  Forall (fun o => mass (rigidBody2d o) <> 0) objs ->
  momentum (stepSimulation self objs dt) = momentum objs.
Proof.
  intros Hmass. unfold stepSimulation, moveObjects.
  transitivity (momentum (pairLoop self dt objs)).
  { unfold momentum. by rewrite <- list_fmap_compose. }
  rewrite pairLoop_pairs.
  apply (foldl_invariant
           (fun st => momentum st = momentum objs /\ kept <$> st = kept <$> objs)
           (fun st p => applyForce self dt p.1 p.2 st)
           (fun st p => applyForce self dt p.1 p.2 st)); [done|].
  intros st [i j] Hp [Hmom Hkept]. split; [done|]. split.
  - rewrite <- Hmom. apply applyForce_momentum.
    + apply unorderedPairs_elem in Hp. cbn. lia.
    + intros k o Hk. by apply (kept_mass objs st k).
  - by rewrite applyForce_kept.
Qed.

(** X5.  Over the reals, for any number of bodies with masses other than
    zero, the total momentum, the sum of [mass * velocity], is the same
    after an internal step and after [update] as before. *)
Theorem total_momentum_conserved (objs : list (SveGameObject R)) (dt : R) (substeps : N) :
  Forall (fun o => mass (rigidBody2d o) <> 0) objs ->
  momentum (stepSimulation self objs dt) = momentum objs
  /\ momentum (update self objs dt substeps) = momentum objs.
Proof.
  intros Hmass. split; [by apply stepSimulation_momentum|].
  unfold update. generalize (dt / of_uint substeps)%fp. intros stepDelta.
  assert (Hall : momentum (N.iter substeps (fun o => stepSimulation self o stepDelta) objs)
                 = momentum objs
                 /\ kept <$> N.iter substeps (fun o => stepSimulation self o stepDelta) objs
                    = kept <$> objs).
  { induction substeps as [|n [IHm IHk]] using N.peano_ind; [done|].
    rewrite N.iter_succ. split.
    - rewrite stepSimulation_momentum; [done|].
      apply Forall_lookup. intros k o Hk. by eapply (kept_mass objs).
    - by rewrite stepSimulation_kept. }
  apply Hall.
Qed.
End Conservation.

Lemma total_momentum_conserved_witness :
  Forall (fun o : SveGameObject R => mass (rigidBody2d o) <> 0%R)
         [Real.body 2 0 0 1 0; Real.body 3 1 0 0 1; Real.body 5 0 1 0 0]
  /\ momentum (GravityPhysicsSystem.update (GravityPhysicsSystem.Build 0.81%R)
                 [Real.body 2 0 0 1 0; Real.body 3 1 0 0 1; Real.body 5 0 1 0 0] 1%R 5)
     = momentum [Real.body 2 0 0 1 0; Real.body 3 1 0 0 1; Real.body 5 0 1 0 0].
Proof.
  assert (Hmass : Forall (fun o : SveGameObject R => mass (rigidBody2d o) <> 0%R)
                    [Real.body 2 0 0 1 0; Real.body 3 1 0 0 1; Real.body 5 0 1 0 0]).
  { repeat constructor; cbn; lra. }
  split; [exact Hmass|].
  exact (proj2 (total_momentum_conserved (GravityPhysicsSystem.Build 0.81%R) _ 1%R 5 Hmass)).
Defined.

(** * The size and the direction of the force *)

Section ForceAgain.
Import GravityPhysicsSystem.
Local Open Scope R_scope.
Local Open Scope vec_scope.
Variable self : GravityPhysicsSystem.t R.

Lemma dot_self_nonneg (u : vec2 R) : 0 <= dot u u.
Proof. cbn. nra. Qed.

Lemma length2_scaled (force s : R) (o : vec2 R) :
  0 <= force -> 0 < s -> s * s = dot o o -> length2 (force *v o /v s) = force.
Proof.
  destruct o as [ox oy]. unfold length2, dot. cbn. intros Hforce Hs Hss.
  replace (force * ox / s * (force * ox / s) + force * oy / s * (force * oy / s))
    with (force * force).
  - by apply sqrt_square.
  - transitivity (force * force * (ox * ox + oy * oy) / (s * s)).
    + rewrite <- Hss. field. lra.
    + field. lra.
Qed.

(** X6.  Over the reals, with [strengthGravity * toObj.mass *
    fromObj.mass >= 0] and [distanceSquared >= 1e-10], the length of
    [computeForce(fromObj, toObj)] is the inverse-square magnitude
    [strengthGravity * toObj.mass * fromObj.mass / distanceSquared]. *)
Theorem computeForce_magnitude (fromObj toObj : SveGameObject R) :
  let offset := translation (transform2d fromObj) -v translation (transform2d toObj) in
  let distanceSquared := dot offset offset in
  distanceSquared >= 1e-10 ->
  0 <= strengthGravity self * mass (rigidBody2d toObj) * mass (rigidBody2d fromObj) ->
  length2 (computeForce self fromObj toObj)
  = strengthGravity self * mass (rigidBody2d toObj) * mass (rigidBody2d fromObj)
    / distanceSquared.
Proof.
  intros offset distanceSquared Hfar Hpos.
  assert (Hd : 0 < distanceSquared) by lra.
  rewrite computeForce_inverse_square_real
    by (fold offset; fold distanceSquared; rewrite Rabs_right; lra).
  fold offset. fold distanceSquared.
  apply length2_scaled.
  - apply Rmult_le_pos; [done|]. left. by apply Rinv_0_lt_compat.
  - by apply sqrt_lt_R0.
  - apply sqrt_sqrt. left. exact Hd.
Qed.

End ForceAgain.

Lemma computeForce_magnitude_witness :
  (dot (vsub (Vec2 1 0) (Vec2 (-1) 0)) (vsub (Vec2 1 0) (Vec2 (-1) 0)) >= 1e-10)%R
  /\ (0 <= 1 * 1 * 1)%R
  /\ length2 (GravityPhysicsSystem.computeForce (GravityPhysicsSystem.Build 1%R)
                (Real.body 1 1 0 0 0) (Real.body 1 (-1) 0 0 0))
     = (1 * 1 * 1 / dot (vsub (Vec2 1 0) (Vec2 (-1) 0)) (vsub (Vec2 1 0) (Vec2 (-1) 0)))%R.
Proof.
  assert (Hfar : (dot (vsub (Vec2 1 0) (Vec2 (-1) 0)) (vsub (Vec2 1 0) (Vec2 (-1) 0))
                  >= 1e-10)%R).
  { change ((1 - -1) * (1 - -1) + (0 - 0) * (0 - 0) >= 1e-10)%R. lra. }
  assert (Hpos : (0 <= 1 * 1 * 1)%R) by lra.
  split; [exact Hfar|]. split; [exact Hpos|].
  exact (computeForce_magnitude (GravityPhysicsSystem.Build 1%R)
           (Real.body 1 1 0 0 0) (Real.body 1 (-1) 0 0 0) Hfar Hpos).
Defined.

Section Attraction.
Import GravityPhysicsSystem.
Local Open Scope R_scope.
Local Open Scope vec_scope.
Variable self : GravityPhysicsSystem.t R.

Lemma pull (gravity ma mb dt s : R) (a c va vc : vec2 R) :
  0 < gravity -> 0 < ma -> 0 < mb -> 0 < dt -> 0 < s -> 0 < dot (a -v c) (a -v c) ->
  let force := (gravity * mb * ma / dot (a -v c) (a -v c)) *v (a -v c) /v s in
  0 < dot ((va -v dt *v force /v ma) -v va) (c -v a)
  /\ 0 < dot ((vc +v dt *v force /v mb) -v vc) (a -v c).
Proof.
  destruct a as [ax ay], c as [cx cy], va as [vax vay], vc as [vcx vcy]. cbn.
  intros Hg Hma Hmb Hdt Hs HD. split.
  - match goal with |- 0 < ?e => replace e with (dt * gravity * mb / s) by (field; lra) end.
    apply Rdiv_lt_0_compat; [|done]. by repeat apply Rmult_lt_0_compat.
  - match goal with |- 0 < ?e => replace e with (dt * gravity * ma / s) by (field; lra) end.
    apply Rdiv_lt_0_compat; [|done]. by repeat apply Rmult_lt_0_compat.
Qed.

(** X7.  Over the reals, gravity attracts: for two bodies of positive
    mass with [distanceSquared >= 1e-10], positive [strengthGravity] and
    [dt], one internal step changes the velocity of each by a vector that
    points to the side of the other (its inner product with the offset to
    the other body is positive). *)
Theorem gravity_attracts (A B : SveGameObject R) (dt : R) :
  let offset := translation (transform2d A) -v translation (transform2d B) in
  dot offset offset >= 1e-10 ->
  0 < strengthGravity self -> 0 < mass (rigidBody2d A) -> 0 < mass (rigidBody2d B) ->
  0 < dt ->
  exists A' B',
    stepSimulation self [A; B] dt = [A'; B']
    /\ 0 < dot (velocity (rigidBody2d A') -v velocity (rigidBody2d A))
               (translation (transform2d B) -v translation (transform2d A))
    /\ 0 < dot (velocity (rigidBody2d B') -v velocity (rigidBody2d B))
               (translation (transform2d A) -v translation (transform2d B)).
Proof.
  intros offset Hfar Hg HA HB Hdt.
  assert (HD : 0 < dot offset offset) by lra.
  eexists _, _. split; [apply two_body_step|].
  rewrite computeForce_inverse_square_real
    by (fold offset; rewrite Rabs_right; lra).
  apply (pull (strengthGravity self) (mass (rigidBody2d A)) (mass (rigidBody2d B)) dt
              (sqrt (dot offset offset))
              (translation (transform2d A)) (translation (transform2d B))
              (velocity (rigidBody2d A)) (velocity (rigidBody2d B)));
    try done. by apply sqrt_lt_R0.
Qed.
End Attraction.

Lemma gravity_attracts_witness :
  (dot (vsub (Vec2 1 0) (Vec2 (-1) 0)) (vsub (Vec2 1 0) (Vec2 (-1) 0)) >= 1e-10)%R
  /\ exists A' B',
       GravityPhysicsSystem.stepSimulation (GravityPhysicsSystem.Build 1%R)
         [Real.body 1 1 0 0 0; Real.body 1 (-1) 0 0 0] 1%R = [A'; B']
       /\ (0 < dot (vsub (velocity (rigidBody2d A')) (Vec2 0 0))
                   (vsub (Vec2 (-1) 0) (Vec2 1 0)))%R.
Proof.
  assert (Hfar : (dot (vsub (Vec2 1 0) (Vec2 (-1) 0)) (vsub (Vec2 1 0) (Vec2 (-1) 0))
                  >= 1e-10)%R).
  { change ((1 - -1) * (1 - -1) + (0 - 0) * (0 - 0) >= 1e-10)%R. lra. }
  split; [exact Hfar|].
  destruct (gravity_attracts (GravityPhysicsSystem.Build 1%R)
              (Real.body 1 1 0 0 0) (Real.body 1 (-1) 0 0 0) 1%R Hfar)
    as (A' & B' & Hstep & HA & _); try (cbn; lra).
  by exists A', B'.
Defined.

(** * Bodies at one place, in binary32 *)

Section Coincident.
Import GravityPhysicsSystem Binary32.
Local Open Scope vec_scope.

Lemma SFsub_diag (a : spec_float) :
  finite32 a = true -> SFsub prec emax a a = S754_zero false.
Proof.
  destruct a as [[]|[]| |s m e]; try done. intros _.
  unfold SFsub. by rewrite Z.sub_diag.
Qed.

(** X8.  In binary32, two objects at the same position with finite
    coordinates exert no force on each other: [computeForce] returns
    [(+0, +0)] whatever the two masses and the strength are, NaN and
    infinities included. *)
Theorem coincident_objects_exert_no_force
    (self : GravityPhysicsSystem.t spec_float) (A B : SveGameObject spec_float) :
  translation (transform2d A) = translation (transform2d B) ->
  finite32 (x (translation (transform2d A))) = true ->
  finite32 (y (translation (transform2d A))) = true ->
  computeForce self A B = Vec2 (S754_zero false) (S754_zero false).
Proof.
  intros Hsame Hx Hy. unfold computeForce. rewrite <- Hsame.
  unfold vsub. cbn [fsub scalar]. by rewrite (SFsub_diag _ Hx), (SFsub_diag _ Hy).
Qed.

Lemma coincident_objects_exert_no_force_witness :
  let A := body S754_nan (dec 5 1) (dec 25 2) in
  let B := body (S754_infinity false) (dec 5 1) (dec 25 2) in
  translation (transform2d A) = translation (transform2d B)
  /\ finite32 (dec 5 1) = true /\ finite32 (dec 25 2) = true
  /\ computeForce (Build (dec 81 2)) A B = Vec2 (S754_zero false) (S754_zero false).
Proof.
  split; [reflexivity|]. split; [reflexivity|]. split; [reflexivity|].
  apply (coincident_objects_exert_no_force (Build (dec 81 2))
           (body S754_nan (dec 5 1) (dec 25 2))
           (body (S754_infinity false) (dec 5 1) (dec 25 2)));
    reflexivity.
Defined.
End Coincident.

(** * The length of a field line, over the reals *)

Section FieldScale.
Local Open Scope R_scope.
Local Open Scope vec_scope.
Variable atan2 : R -> R -> R.

Lemma clamp_mono (a c : R) : a <= c -> clamp a 0 1 <= clamp c 0 1.
Proof.
  intros Hac. unfold clamp, fmin, fmax. cbn. unfold Real.ltb.
  repeat destruct (Rlt_dec _ _); lra.
Qed.

Lemma clamp_one (a : R) : 1 <= a -> clamp a 0 1 = 1.
Proof.
  intros Ha. unfold clamp, fmin, fmax. cbn. unfold Real.ltb.
  repeat destruct (Rlt_dec _ _); lra.
Qed.

Lemma length2_nonneg (d : vec2 R) : 0 <= length2 d.
Proof. unfold length2. apply sqrt_pos. Qed.

Lemma ln_mono (a c : R) : 0 < a -> a <= c -> ln a <= ln c.
Proof.
  intros Ha [Hlt| ->]; [|lra]. left. by apply ln_increasing.
Qed.

(** X9.  Over the reals, the [scale.x] that [Vec2FieldSystem::update]
    writes grows with the net force: a direction that is no shorter gets
    a field line that is no shorter. *)
Theorem field_line_grows_with_force (d d' : vec2 R) (vf vf' : SveGameObject R) :
  length2 d <= length2 d' ->
  x (scale (transform2d (Vec2FieldSystem.orient (lib := Real.libm atan2) d vf)))
  <= x (scale (transform2d (Vec2FieldSystem.orient (lib := Real.libm atan2) d' vf'))).
Proof.
  intros Hlen. cbn.
  pose proof (length2_nonneg d) as Hd.
  assert (Hln : ln (length2 d + 1) / 3 <= ln (length2 d' + 1) / 3).
  { apply Rmult_le_compat_r; [lra|]. apply ln_mono; lra. }
  pose proof (clamp_mono _ _ Hln) as Hc. cbn in *. lra.
Qed.

(** X10.  Over the reals, the field line saturates: once the net force
    is as long as [e^3 - 1], the written [scale.x] is [0.05]. *)
Theorem field_line_saturates (d : vec2 R) (vf : SveGameObject R) :
  exp 3 - 1 <= length2 d ->
  x (scale (transform2d (Vec2FieldSystem.orient (lib := Real.libm atan2) d vf))) = 0.05.
Proof.
  intros Hlen. cbn.
  assert (Hln : 1 <= ln (length2 d + 1) / 3).
  { assert (3 <= ln (length2 d + 1)); [|lra].
    rewrite <- (ln_exp 3) at 1. apply ln_mono; [apply exp_pos|lra]. }
  pose proof (clamp_one _ Hln) as Hc. cbn in *. rewrite Hc. lra.
Qed.
End FieldScale.

Lemma field_line_grows_with_force_witness :
  (length2 (Vec2 0 0) <= length2 (Vec2 3 4))%R
  /\ (x (scale (transform2d (Vec2FieldSystem.orient (lib := Real.libm Real.atan2)
                               (Vec2 0%R 0%R) (Real.body 1 0 0 0 0))))
      <= x (scale (transform2d (Vec2FieldSystem.orient (lib := Real.libm Real.atan2)
                                  (Vec2 3%R 4%R) (Real.body 1 0 0 0 0)))))%R.
Proof.
  assert (Hlen : (length2 (Vec2 0 0) <= length2 (Vec2 3 4))%R).
  { change (sqrt (0 * 0 + 0 * 0) <= sqrt (3 * 3 + 4 * 4))%R. apply sqrt_le_1_alt. lra. }
  split; [exact Hlen|].
  exact (field_line_grows_with_force Real.atan2 (Vec2 0%R 0%R) (Vec2 3%R 4%R)
           (Real.body 1 0 0 0 0) (Real.body 1 0 0 0 0) Hlen).
Defined.

Lemma field_line_saturates_witness :
  (exp 3 - 1 <= length2 (Vec2 27 0))%R
  /\ x (scale (transform2d (Vec2FieldSystem.orient (lib := Real.libm Real.atan2)
                              (Vec2 27%R 0%R) (Real.body 1 0 0 0 0))))
     = 0.05%R.
Proof.
  assert (Hlen : (exp 3 - 1 <= length2 (Vec2 27 0))%R).
  { change (exp 3 - 1 <= sqrt (27 * 27 + 0 * 0))%R.
    replace (27 * 27 + 0 * 0)%R with (27 * 27)%R by ring.
    rewrite sqrt_square by lra.
    replace 3%R with (1 + 1 + 1)%R by ring. rewrite !exp_plus.
    pose proof exp_le_3. pose proof (exp_pos 1). nra. }
  split; [exact Hlen|].
  exact (field_line_saturates Real.atan2 (Vec2 27%R 0%R) (Real.body 1 0 0 0 0) Hlen).
Defined.

(** * The circle model *)

Section Circle.
Context {F : Type} {ops : Scalar F} {lits : ModelLiterals F}.
Variable unset : vec3 F.

Lemma fan_from (unique : list (SveModel.Vertex F)) (n m k : nat) :
  k + m <= n -> n < length unique ->
  exists vertices,
    foldr (fun i rest =>
             a ← unique !! i;
             c ← unique !! ((i + 1) mod n);
             o ← unique !! n;
             vertices ← rest;
             Some (a :: c :: o :: vertices))
          (Some []) (seq k m) = Some vertices
    /\ length vertices = 3 * m
    /\ forall i, i < m ->
         vertices !! (3 * i) = unique !! (k + i)
         /\ vertices !! (3 * i + 1) = unique !! ((k + i + 1) mod n)
         /\ vertices !! (3 * i + 2) = unique !! n.
Proof.
  revert k. induction m as [|m IH]; intros k Hkm Hn.
  - exists []. split_and!; [done|done|]. intros i Hi. lia.
  - destruct (IH (S k)) as (rest & Hrest & Hlen & Hat); [lia|done|].
    destruct (lookup_lt_is_Some_2 unique k) as [a Ha]; [lia|].
    destruct (lookup_lt_is_Some_2 unique ((k + 1) mod n)) as [c Hc].
    { pose proof (Nat.mod_upper_bound (k + 1) n). lia. }
    destruct (lookup_lt_is_Some_2 unique n) as [o Ho]; [done|].
    exists (a :: c :: o :: rest). split_and!.
    + cbn [seq foldr]. rewrite Hrest, Ha, Hc, Ho. done.
    + cbn. lia.
    + intros [|i] Hi.
      * replace (k + 0) with k by lia. by rewrite Ha, Hc, Ho.
      * destruct (Hat i) as (H0 & H1 & H2); [lia|].
        replace (3 * S i + 1) with (S (S (S (3 * i + 1)))) by lia.
        replace (3 * S i + 2) with (S (S (S (3 * i + 2)))) by lia.
        replace (3 * S i) with (S (S (S (3 * i)))) by lia.
        replace (k + S i) with (S k + i) by lia.
        change (rest !! (3 * i) = unique !! (S k + i)
                /\ rest !! (3 * i + 1) = unique !! ((S k + i + 1) mod n)
                /\ rest !! (3 * i + 2) = unique !! n).
        by rewrite H0, H1, H2.
Qed.

Lemma fan_elements (unique : list (SveModel.Vertex F)) (n : nat) (l : list nat)
    (vertices : list (SveModel.Vertex F)) :
  foldr (fun i rest =>
           a ← unique !! i;
           c ← unique !! ((i + 1) mod n);
           o ← unique !! n;
           vertices ← rest;
           Some (a :: c :: o :: vertices))
        (Some []) l = Some vertices ->
  forall v, v ∈ vertices -> v ∈ unique.
Proof.
  revert vertices. induction l as [|i l IH]; intros vertices Hfan v Hv.
  - injection Hfan as <-. by apply not_elem_of_nil in Hv.
  - cbn [foldr] in Hfan.
    destruct (unique !! i) as [a|] eqn:Ha; [|done].
    destruct (unique !! ((i + 1) mod n)) as [c|] eqn:Hc; [|done].
    destruct (unique !! n) as [o|] eqn:Ho; [|done].
    destruct (foldr _ _ l) as [rest|] eqn:Hrest; [|done].
    cbn in Hfan. injection Hfan as <-.
    apply elem_of_cons in Hv as [->|Hv]; [by eapply list_elem_of_lookup_2|].
    apply elem_of_cons in Hv as [->|Hv]; [by eapply list_elem_of_lookup_2|].
    apply elem_of_cons in Hv as [->|Hv]; [by eapply list_elem_of_lookup_2|].
    by apply (IH rest).
Qed.

Lemma uniqueVertices_length {trig : Trig F} (n : nat) :
  length (uniqueVertices unset n) = n + 1.
Proof. unfold uniqueVertices. by rewrite length_app, length_fmap, length_seq. Qed.

(** X11.  In every arithmetic and for every [numSides], zero included:
    [createCircleModel] reads no vertex past the end of [uniqueVertices];
    it makes [3 * numSides] vertices, a triangle for each side: a vertex
    of the rim, the vertex that begins the next triangle (the first one
    after the last), and the centre [(0, 0)]. *)
Theorem createCircleModel_closed_fan {trig : Trig F} (numSides : nat) :
  exists vertices,
    createCircleModel unset numSides = Some vertices
    /\ length vertices = 3 * numSides
    /\ forall i, i < numSides ->
         vertices !! (3 * i)
         = Some (vertexAt unset
                   (Vec2 (fcos (fdiv (fmul (of_index i) f_two_pi) (of_index numSides)))
                         (fsin (fdiv (fmul (of_index i) f_two_pi) (of_index numSides)))))
         /\ vertices !! (3 * i + 1) = vertices !! (3 * ((i + 1) mod numSides))
         /\ vertices !! (3 * i + 2) = Some (vertexAt unset (Vec2 f_0 f_0)).
Proof.
  destruct (fan_from (uniqueVertices unset numSides) numSides numSides 0)
    as (vertices & Hfan & Hlen & Hat).
  { lia. } { rewrite uniqueVertices_length. lia. }
  exists vertices. split_and!; [done|done|].
  intros i Hi. destruct (Hat i Hi) as (H0 & H1 & H2).
  assert (Hnext : (i + 1) mod numSides < numSides) by (apply Nat.mod_upper_bound; lia).
  destruct (Hat _ Hnext) as (H0' & _ & _).
  split_and!.
  - rewrite H0. unfold uniqueVertices. rewrite lookup_app_l by (rewrite length_fmap, length_seq; lia).
    by rewrite list_lookup_fmap, lookup_seq_lt.
  - by rewrite H1, H0'.
  - rewrite H2. unfold uniqueVertices.
    rewrite lookup_app_r by (rewrite length_fmap, length_seq; lia).
    by rewrite length_fmap, length_seq, Nat.sub_diag.
Qed.
End Circle.

Section CircleOverReals.
Local Open Scope R_scope.
Variable unset : vec3 R.

(** X12.  Over the reals, every vertex of the circle model is the centre
    [(0, 0)] or lies on the unit circle. *)
Theorem createCircleModel_on_unit_circle (numSides : nat) :
  exists vertices,
    createCircleModel unset numSides = Some vertices
    /\ Forall (fun v => SveModel.position v = Vec2 0 0
                        \/ dot (SveModel.position v) (SveModel.position v) = 1)
              vertices.
Proof.
  destruct (fan_from (uniqueVertices unset numSides) numSides numSides 0)
    as (vertices & Hfan & _ & _).
  { lia. } { rewrite uniqueVertices_length. lia. }
  exists vertices. split; [done|].
  apply Forall_forall. intros v Hv.
  apply (fan_elements _ _ _ _ Hfan) in Hv. unfold uniqueVertices in Hv.
  apply elem_of_app in Hv as [Hv|Hv].
  - right. apply list_elem_of_fmap in Hv as (i & -> & _). cbn.
    match goal with |- cos ?a * cos ?a + sin ?a * sin ?a = 1 =>
      pose proof (sin2_cos2 a) as Hsc; unfold Rsqr in Hsc; lra end.
  - left. apply list_elem_of_singleton in Hv as ->. done.
Qed.
End CircleOverReals.

(** * The grid of field lines *)

Section Grid.
Context {A : Type}.

Lemma grid_length (row : nat -> list A) (g k m : nat) :
  (forall i, length (row i) = g) -> length (seq k m ≫= row) = m * g.
Proof.
  intros Hrow. revert k. induction m as [|m IH]; intros k; [done|].
  cbn [seq]. rewrite bind_cons, length_app, Hrow, IH. lia.
Qed.

Lemma grid_lookup (cell : nat -> nat -> A) (g k m i j : nat) :
  i < m -> j < g ->
  (seq k m ≫= fun i' => cell i' <$> seq 0 g) !! (i * g + j) = Some (cell (k + i) j).
Proof.
  revert k i. induction m as [|m IH]; intros k i Hi Hj; [lia|].
  cbn [seq]. rewrite bind_cons. destruct i as [|i].
  - rewrite lookup_app_l by (rewrite length_fmap, length_seq; lia).
    rewrite list_lookup_fmap, lookup_seq_lt by lia.
    by replace (k + 0) with k by lia.
  - rewrite lookup_app_r by (rewrite length_fmap, length_seq; lia).
    rewrite length_fmap, length_seq.
    replace (S i * g + j - g) with (i * g + j) by lia.
    rewrite IH by lia. by replace (S k + i) with (k + S i) by lia.
Qed.
End Grid.

Section GridOverReals.
Local Open Scope R_scope.

Lemma of_index_bounds (i g : nat) :
  (i < g)%nat -> 0 <= of_index i /\ of_index i + 1 <= of_index g.
Proof.
  intros Hi. unfold of_index. cbn. split.
  - apply IZR_le. lia.
  - rewrite <- plus_IZR. apply IZR_le. lia.
Qed.

Lemma of_index_mirror (i g : nat) :
  (i < g)%nat -> of_index (g - 1 - i) = of_index g - 1 - of_index i.
Proof.
  intros Hi. unfold of_index. cbn. rewrite <- !minus_IZR. f_equal. lia.
Qed.

Lemma cell_inside (a n : R) :
  0 <= a -> a + 1 <= n -> -1 < -1 + (a + 0.5) * 2 / n < 1.
Proof.
  intros Ha Hn.
  assert (Hq : forall h, (a + h) * 2 / n * n = (a + h) * 2) by (intros; field; lra).
  specialize (Hq 0.5).
  split; nra.
Qed.

Lemma cell_mirror (a n h : R) :
  a + 1 <= n -> 0 <= a -> 2 * h = 1 ->
  -1 + (n - 1 - a + h) * 2 / n = - (-1 + (a + h) * 2 / n).
Proof.
  intros Hn Ha Hh. replace h with (1 / 2) by lra. field. lra.
Qed.

(** X13.  Over the reals, for every [gridCount]: the two loops of [run]
    make [gridCount * gridCount] field lines, the one for [(i, j)] at
    index [i * gridCount + j]; each has scale [(0.005, 0.005)] and lies
    strictly inside the square [(-1, 1) x (-1, 1)], and the line for
    [(gridCount - 1 - i, gridCount - 1 - j)] lies opposite to it across
    the origin. *)
Theorem vector_field_grid (squareModel gridCount : nat) (created : SveGameObject R) :
  let field := makeVectorField squareModel gridCount created in
  length field = (gridCount * gridCount)%nat
  /\ forall i j, (i < gridCount)%nat -> (j < gridCount)%nat ->
       exists vf vf',
         field !! (i * gridCount + j)%nat = Some vf
         /\ field !! ((gridCount - 1 - i) * gridCount + (gridCount - 1 - j))%nat = Some vf'
         /\ scale (transform2d vf) = Vec2 0.005 0.005
         /\ -1 < x (translation (transform2d vf)) < 1
         /\ -1 < y (translation (transform2d vf)) < 1
         /\ translation (transform2d vf') = vneg (translation (transform2d vf)).
Proof.
  cbn zeta. unfold makeVectorField. split.
  - apply grid_length. intros i. by rewrite length_fmap, length_seq.
  - intros i j Hi Hj. eexists _, _.
    split; [by apply (grid_lookup _ gridCount 0 gridCount i j)|].
    split; [apply (grid_lookup _ gridCount 0 gridCount); lia|].
    destruct (of_index_bounds i gridCount Hi) as [Hi0 Hi1].
    destruct (of_index_bounds j gridCount Hj) as [Hj0 Hj1].
    split_and!; [done| | | | |].
    + apply cell_inside; done.
    + apply cell_inside; done.
    + apply cell_inside; done.
    + apply cell_inside; done.
    + cbn [fieldLine set_model set_color set_translation set_scale transform2d translation].
      rewrite !Nat.add_0_l, (of_index_mirror i gridCount Hi), (of_index_mirror j gridCount Hj).
      apply vec2_eq.
      * apply (cell_mirror (of_index i) (of_index gridCount) 0.5); [done|done|lra].
      * apply (cell_mirror (of_index j) (of_index gridCount) 0.5); [done|done|lra].
Qed.
End GridOverReals.

(** * The square model *)

Section Square.
Local Open Scope R_scope.
Variable unset : vec3 R.

(** X14.  Over the reals, the six vertices of [createSquareModel] lie in
    the square of side 1 around [offset]; with the offset [(0.5, 0)] that
    [run] passes, the origin is the middle of its left edge, as the
    comment in [run] says: the two ends of that edge, [(0, -0.5)] and
    [(0, 0.5)], are vertices, and no vertex has a negative [x]. *)
Theorem createSquareModel_edge_at_origin (offset : vec2 R) :
  let vertices := createSquareModel unset offset in
  length vertices = 6%nat
  /\ Forall (fun v => x offset - 0.5 <= x (SveModel.position v) <= x offset + 0.5
                      /\ y offset - 0.5 <= y (SveModel.position v) <= y offset + 0.5)
            vertices
  /\ (offset = Vec2 0.5 0 ->
      Forall (fun v => 0 <= x (SveModel.position v)) vertices
      /\ (exists v, v ∈ vertices /\ x (SveModel.position v) = 0
                    /\ y (SveModel.position v) = -0.5)
      /\ (exists v, v ∈ vertices /\ x (SveModel.position v) = 0
                    /\ y (SveModel.position v) = 0.5)).
Proof.
  cbn zeta. split; [done|]. split.
  - unfold createSquareModel. cbn [fmap list_fmap].
    do 6 (apply Forall_cons_2; [cbn; lra|]). apply Forall_nil_2.
  - intros ->. split_and!.
    + unfold createSquareModel. cbn [fmap list_fmap].
      do 6 (apply Forall_cons_2; [cbn; lra|]). apply Forall_nil_2.
    + eexists. split; [apply list_elem_of_here|]. cbn. lra.
    + eexists. split; [apply list_elem_of_further, list_elem_of_further, list_elem_of_here|].
      cbn. lra.
Qed.
End Square.

(** * Moving the whole scene, over the reals *)

Section Translation.
Import GravityPhysicsSystem.
Local Open Scope R_scope.
Local Open Scope vec_scope.
Variable self : GravityPhysicsSystem.t R.
Variable t : vec2 R.

Lemma computeForce_shift (A B : SveGameObject R) :
  computeForce self (shift t A) (shift t B) = computeForce self A B.
Proof.
  unfold computeForce. cbn [shift set_translation transform2d translation rigidBody2d].
  replace (translation (transform2d A) +v t -v (translation (transform2d B) +v t))
    with (translation (transform2d A) -v translation (transform2d B));
    [done|]. apply vec2_eq; cbn; ring.
Qed.

Lemma applyForce_shift (dt : R) (i j : nat) (objs : list (SveGameObject R)) :
  applyForce self dt i j (shift t <$> objs) = shift t <$> applyForce self dt i j objs.
Proof.
  unfold applyForce. rewrite !list_lookup_fmap.
  destruct (objs !! i) as [a|]; [|done]. destruct (objs !! j) as [c|]; [|done].
  cbn [fmap option_fmap option_map]. rewrite computeForce_shift. cbn zeta.
  symmetry. erewrite !list_fmap_alter; [done|..];
    by apply Forall_forall.
Qed.

Lemma stepSimulation_shift (dt : R) (objs : list (SveGameObject R)) :
  stepSimulation self (shift t <$> objs) dt = shift t <$> stepSimulation self objs dt.
Proof.
  unfold stepSimulation.
  assert (Hpairs : pairLoop self dt (shift t <$> objs) = shift t <$> pairLoop self dt objs).
  { rewrite !pairLoop_pairs, length_fmap.
    generalize (Spec.unorderedPairs (length objs)). intros l.
    revert objs. induction l as [|p l IH]; intros objs; [done|].
    cbn [foldl]. by rewrite applyForce_shift, IH. }
  rewrite Hpairs. unfold moveObjects. rewrite <- !list_fmap_compose.
  apply list_fmap_ext. intros _ o _. cbn.
  unfold shift. change (set_translation (set_translation ?a ?p) ?q) with (set_translation a q).
  apply set_translation_eq; cbn; ring.
Qed.

(** X15.  Over the reals, the simulation does not depend on where the
    origin is: moving every body by the same vector [t] leaves every
    force as it is, and [update] of the moved bodies is the moved result
    of [update]. *)
Theorem update_commutes_with_translation
    (objs : list (SveGameObject R)) (dt : R) (substeps : N) :
  (forall A B, computeForce self (shift t A) (shift t B) = computeForce self A B)
  /\ update self (shift t <$> objs) dt substeps = shift t <$> update self objs dt substeps.
Proof.
  split; [apply computeForce_shift|].
  unfold update. generalize (dt / of_uint substeps)%fp. intros stepDelta.
  induction substeps as [|n IH] using N.peano_ind; [done|].
  by rewrite !N.iter_succ, IH, stepSimulation_shift.
Qed.
End Translation.
